(** * mvcapp: session store, action results and request dispatch

    A shallow embedding of the Go package [mvcapp].

    - [GoSlice]: Go slices of session pointers over shared backing arrays.
      [DropSession] and [CleanSessions] reassign [manager.Sessions] while a
      [range] loop is still walking the slice it started with, and their
      [append] calls write into the backing array both slices share, so the
      arrays and the slice headers are modelled explicitly.
    - [SessionManager]: the session store of sessionmanager.go.
    - [ActionResultV01]: [ActionResult.Execute] of the v0.1 actionresult.go.
    - [RouteManager]: request dispatch.

    A Go panic (slice bounds out of range, nil dereference) is [None]. *)

From Stdlib Require Import Ascii.
From stdpp Require Import base numbers strings option list gmap.

Local Open Scope Z_scope.
Local Open Scope nat_scope.

(** ** Go slices over backing arrays *)

Module GoSlice.

(** A [*Session]: [None] is the nil pointer, [Some a] the address of a
    Session object. *)
Definition ptr : Type := option nat.
Definition nil : ptr := None.

(** A slice header: the backing array it points into, the offset of its
    first element there, and its length. Its capacity runs from the offset
    to the end of the backing array. *)
Record slice := Slice { s_arr : nat; s_off : nat; s_len : nat }.

Abbreviation arrays := (list (list ptr)).

Definition backing (h : arrays) (s : slice) : list ptr :=
  default [] (h !! s_arr s).

Definition cap (h : arrays) (s : slice) : nat :=
  length (backing h s) - s_off s.

(** The elements a slice denotes. *)
Definition elems (h : arrays) (s : slice) : list ptr :=
  take (s_len s) (drop (s_off s) (backing h s)).

(** [s[i]]: panics unless [i < len(s)]. *)
Definition index (h : arrays) (s : slice) (i : nat) : option ptr :=
  if decide (i < s_len s) then backing h s !! (s_off s + i) else None.

(** [s[lo:]]: panics unless [lo <= len(s)]. *)
Definition slice_from (s : slice) (lo : nat) : option slice :=
  if decide (lo ≤ s_len s)
  then Some (Slice (s_arr s) (s_off s + lo) (s_len s - lo))
  else None.

(** [s[:hi]]: panics unless [hi <= cap(s)]; [hi] may exceed [len(s)], which
    re-exposes whatever the backing array holds past the slice. *)
Definition slice_to (h : arrays) (s : slice) (hi : nat) : option slice :=
  if decide (hi ≤ cap h s)
  then Some (Slice (s_arr s) (s_off s) hi)
  else None.

(** A slice literal [[]*Session{}]: a fresh array of capacity 0. *)
Definition empty_slice (h : arrays) : arrays * slice :=
  (h ++ [[]], Slice (length h) 0 0).

Section append.
(** The runtime's choice of a new capacity when [append] has to
    reallocate, from the old capacity and the length needed. It depends
    on the Go release; nothing below depends on which one it is. *)
Variable growcap : nat → nat → nat.

(** [append(s, xs...)]. With room in the backing array the new elements
    are written in place, past [s], and the array stays shared with every
    other slice pointing into it. Without room, [s] and [xs] are copied to
    a fresh array whose spare capacity holds nil. [xs] has been read
    before anything is written (Go copies with memmove semantics). *)
Definition append (h : arrays) (s : slice) (xs : list ptr) : arrays * slice :=
  let n := s_len s + length xs in
  if decide (n ≤ cap h s) then
    (<[s_arr s := list_inserts (s_off s + s_len s) xs (backing h s)]> h,
     Slice (s_arr s) (s_off s) n)
  else
    (h ++ [elems h s ++ xs ++ replicate (growcap (cap h s) n - n) nil],
     Slice (length h) 0 n).
End append.

(** A slice lies within its backing array. *)
Definition wf_slice (h : arrays) (s : slice) : Prop :=
  s_arr s < length h ∧ s_off s + s_len s ≤ length (backing h s).

End GoSlice.

(** ** The session store (sessionmanager.go) *)

Module SessionManager.
Import GoSlice.

(** Modelled from the spec: the [SessionValue] type is declared in
    session.go, which is not among the sources; the spec describes a
    session's values as an ordered sequence of (key, value) pairs. *)
Definition SessionValue : Type := string * string.

(** Modelled from the spec: the [Session] struct is declared in session.go,
    which is not among the sources. The fields are the ones
    sessionmanager.go uses ([ID], [Values], [ActivityDate]); the spec gives
    them as id, values and last_activity. An instant is a number of
    nanoseconds. *)
Record Session := mkSession {
  ID : string;
  Values : list SessionValue;
  ActivityDate : Z
}.

(** Modelled from the spec: [NewSession] is defined in session.go, which is
    not among the sources; per the spec a new record has no values and the
    current time as its activity stamp. [CreateSession] overwrites the ID
    at once. *)
Definition NewSession (now : Z) : Session :=
  {| ID := ""; Values := []; ActivityDate := now |}.

(** The state the store's methods act on: the Session objects the pointers
    refer to, the backing arrays, and the manager's fields. *)
Record state := mkState {
  objs : list Session;
  arrs : arrays;
  Sessions : slice;
  SessionTimeout : Z
}.

Definition set_objs (o : list Session) (st : state) : state :=
  {| objs := o; arrs := arrs st; Sessions := Sessions st;
     SessionTimeout := SessionTimeout st |}.

(** [manager.Sessions = s], together with what evaluating [s] did to the
    backing arrays. *)
Definition set_Sessions (hs : arrays * slice) (st : state) : state :=
  {| objs := objs st; arrs := hs.1; Sessions := hs.2;
     SessionTimeout := SessionTimeout st |}.

(** Dereferencing a pointer; nil panics. *)
Definition deref (st : state) (p : ptr) : option Session :=
  a ← p; objs st !! a.

(** [NewSessionManager]: [make([]*Session, 0)] and a 15 minute timeout. *)
Definition NewSessionManager : state :=
  {| objs := []; arrs := [[]]; Sessions := Slice 0 0 0;
     SessionTimeout := 15 * 60 * 1000000000 |}.

(** The pointers the collection holds, and the records behind them. *)
Definition held (st : state) : list ptr := elems (arrs st) (Sessions st).

Definition records (st : state) : option (list Session) :=
  mapM (deref st) (held st).

(** [GetSession]: the loop body changes nothing, so the range runs over the
    elements as they are on entry; [manager.Sessions[key]] is [val]. *)
Fixpoint GetSession_range (st : state) (id : string) (vals : list ptr)
  : option ptr :=
  match vals with
  | [] => Some nil
  | val :: rest =>
      s ← deref st val;
      if decide (ID s = id) then Some val else GetSession_range st id rest
  end.

Definition GetSession (id : string) (st : state) : option (ptr * state) :=
  res ← GetSession_range st id (held st); Some (res, st).

Fixpoint Contains_range (st : state) (id : string) (vals : list ptr)
  : option bool :=
  match vals with
  | [] => Some false
  | v :: rest =>
      s ← deref st v;
      if decide (ID s = id) then Some true else Contains_range st id rest
  end.

Definition Contains (id : string) (st : state) : option (bool * state) :=
  res ← Contains_range st id (held st); Some (res, st).

Section methods.
Variable growcap : nat → nat → nat.

(** [CreateSession], called at instant [now]. *)
Definition CreateSession (now : Z) (id : string) (st : state)
  : option (ptr * state) :=
  let i := s_len (Sessions st) in
  let session : ptr := Some (length (objs st)) in
  let st1 :=
    set_objs (objs st ++ [{| ID := id; Values := Values (NewSession now);
                             ActivityDate := ActivityDate (NewSession now) |}])
             st in
  let st2 :=
    set_Sessions (append growcap (arrs st1) (Sessions st1) [session]) st1 in
  res ← index (arrs st2) (Sessions st2) i;
  Some (res, st2).

(** [res.Values = append([]*SessionValue{}, session.Values...)]: a copy
    of the incoming values; the other fields of [*res] stay. *)
Definition assign_Values (a : nat) (vs : list SessionValue) (st : state)
  : option state :=
  r ← objs st !! a;
  Some (set_objs (<[a := {| ID := ID r; Values := vs;
                            ActivityDate := ActivityDate r |}]> (objs st)) st).

Definition SetSession (session : ptr) (st : state) : option state :=
  s ← deref st session;
  let id := ID s in
  '(res, st) ← GetSession id st;
  match res with
  | Some a => assign_Values a (Values s) st
  | None =>
      Some (set_Sessions (append growcap (arrs st) (Sessions st) [session]) st)
  end.

(** [append(manager.Sessions[:key], manager.Sessions[key+1:]...)] *)
Definition cut_at (key : nat) (st : state) : option (arrays * slice) :=
  a ← slice_to (arrs st) (Sessions st) key;
  b ← slice_from (Sessions st) (key + 1);
  Some (append growcap (arrs st) a (elems (arrs st) b)).

(** [append(manager.Sessions[2:], manager.Sessions[0])] *)
Definition rotate (st : state) : option (arrays * slice) :=
  a ← slice_from (Sessions st) 2;
  x ← index (arrs st) (Sessions st) 0;
  Some (append growcap (arrs st) a [x]).

(** The body of [DropSession]'s loop once [val.ID == id]. *)
Definition DropSession_body (key : nat) (st : state) : option state :=
  if decide (1 < key) then
    hs ← cut_at key st; Some (set_Sessions hs st)
  else if decide (key = 1) then
    hs ← rotate st; Some (set_Sessions hs st)
  else
    s ← slice_from (Sessions st) 1; Some (set_Sessions (arrs st, s) st).

(** [for key, val := range manager.Sessions]: the range expression is
    evaluated once, so [r] is the slice header on entry and the loop makes
    [len(r)] iterations whatever the body assigns to [manager.Sessions];
    [val] is read from [r]'s backing array at each iteration, so it sees
    what earlier iterations wrote there. [todo] counts the iterations
    left. *)
Fixpoint DropSession_loop (id : string) (r : slice) (key todo : nat)
    (st : state) : option state :=
  match todo with
  | 0 => Some st
  | S todo' =>
      val ← index (arrs st) r key;
      s ← deref st val;
      st' ← (if decide (ID s = id) then DropSession_body key st else Some st);
      DropSession_loop id r (S key) todo' st'
  end.

Definition DropSession (id : string) (st : state) : option state :=
  DropSession_loop id (Sessions st) 0 (s_len (Sessions st)) st.

(** The body of [CleanSessions]'s loop once
    [val.ActivityDate.Before(expired)]. *)
Definition CleanSessions_body (key : nat) (st : state) : option state :=
  let len := s_len (Sessions st) in
  if decide (1 < key) then
    if decide (1 < len) then
      hs ← cut_at key st; Some (set_Sessions hs st)
    else
      s ← slice_to (arrs st) (Sessions st) key;
      Some (set_Sessions (arrs st, s) st)
  else if decide (key = 1) then
    if decide (1 < len) then
      hs ← rotate st; Some (set_Sessions hs st)
    else
      x ← index (arrs st) (Sessions st) 0;
      let '(h, e) := empty_slice (arrs st) in
      Some (set_Sessions (append growcap h e [x]) st)
  else
    if decide (1 < len) then
      s ← slice_from (Sessions st) 1; Some (set_Sessions (arrs st, s) st)
    else
      Some (set_Sessions (empty_slice (arrs st)) st).

Fixpoint CleanSessions_loop (expired : Z) (r : slice) (key todo : nat)
    (st : state) : option state :=
  match todo with
  | 0 => Some st
  | S todo' =>
      val ← index (arrs st) r key;
      s ← deref st val;
      st' ← (if decide (ActivityDate s < expired)%Z
             then CleanSessions_body key st else Some st);
      CleanSessions_loop expired r (S key) todo' st'
  end.

(** [CleanSessions], called at instant [now]:
    [expired := time.Now().Add(-manager.SessionTimeout)]. *)
Definition CleanSessions (now : Z) (st : state) : option state :=
  CleanSessions_loop (now - SessionTimeout st)%Z (Sessions st) 0
    (s_len (Sessions st)) st.
End methods.

(** The store's collection lies within its backing array, and every pointer
    it holds refers to a Session. *)
Definition valid (st : state) : Prop :=
  wf_slice (arrs st) (Sessions st)
  ∧ Forall (λ p, is_Some (deref st p)) (held st).

(** The IDs of the held records, in order. *)
Definition ids (st : state) : list (option string) :=
  (λ p, ID <$> deref st p) <$> held st.

(** The store's invariant: at most one Session per ID in the collection. *)
Definition unique_ids (st : state) : Prop :=
  valid st ∧ NoDup (ids st).

(** The position of the first held record carrying [id]. *)
Definition position (id : string) (st : state) : option nat :=
  fst <$> list_find (λ o, o = Some id) (ids st).

(** What the three branches of [DropSession] make of a collection whose
    record at position [k] is to go: [manager.Sessions[1:]] for position 0,
    [manager.Sessions[2:]] followed by [manager.Sessions[0]] for position 1,
    and the collection with the record cut out for a position above 1. *)
Definition dropped_at (k : nat) (l : list ptr) : list ptr :=
  match k with
  | 0 => drop 1 l
  | 1 => drop 2 l ++ take 1 l
  | _ => delete k l
  end.

(** At iteration [j] of a range over [r], [val] is a record whose ID is not
    [id]: the iteration passes without a removal. *)
Definition passes (id : string) (r : slice) (j : nat) (st : state) : Prop :=
  ∃ p s, index (arrs st) r j = Some p ∧ deref st p = Some s ∧ ID s ≠ id.

(** The record behind a held pointer is older than the timeout at instant
    [now]: [val.ActivityDate.Before(expired)] in [CleanSessions]. *)
Definition is_expired (now : Z) (st : state) (p : ptr) : Prop :=
  ∃ s, deref st p = Some s ∧ (ActivityDate s < now - SessionTimeout st)%Z.

(** The specification's words for the two removals, on the records of a
    collection: [drop(id)] removes the record matching [id] and
    [sweep_expired(now)] removes every record whose last activity is older
    than [now - timeout], both preserving the order of the others. *)
Definition drop_spec (id : string) (l : list Session) : list Session :=
  filter (λ s, ID s ≠ id) l.

Definition sweep_expired_spec (now timeout : Z) (l : list Session)
  : list Session :=
  filter (λ s, ¬ (ActivityDate s < now - timeout)%Z) l.

(** A store built directly: the records [l] in one backing array with
    [spare] further cells of capacity, holding nil. *)
Definition store_of (l : list Session) (spare : nat) (timeout : Z) : state :=
  {| objs := l;
     arrs := [(Some <$> seq 0 (length l)) ++ replicate spare nil];
     Sessions := Slice 0 0 (length l);
     SessionTimeout := timeout |}.

(** Two and three records last active at instant 0, and a store with a
    stored record "a" next to an incoming one carrying the same ID. *)
Definition sA : Session := mkSession "a" [] 0.
Definition sB : Session := mkSession "b" [] 0.
Definition sC : Session := mkSession "c" [] 0.

Definition stored_a : Session := mkSession "a" [("k", "old")] 10.
Definition incoming_a : Session := mkSession "a" [("k", "new")] 50.

Definition upsert_store : state :=
  {| objs := [stored_a; incoming_a]; arrs := [[Some 0]];
     Sessions := Slice 0 0 1; SessionTimeout := 10 |}.

(** Records last active at instant 95, within a timeout of 10 at
    instant 100. *)
Definition fX : Session := mkSession "x" [] 95.
Definition fY : Session := mkSession "y" [] 95.

(** The capacity growth used in the worked examples: doubling. *)
Definition doubling (old needed : nat) : nat := Nat.max needed (2 * old).

(** A store reached through the store's own methods: six sessions are
    created at instant 0, "p4", "p3", "p2" and "p0" are dropped, and "f" is
    created. The backing array then still holds, past the three records of
    the collection, pointers left behind by the removals. *)
Definition run_all (ops : list (state → option state)) (st : state)
  : option state :=
  foldl (λ acc op, acc ≫= op) (Some st) ops.

Definition create (id : string) (st : state) : option state :=
  snd <$> CreateSession doubling 0 id st.

Definition history : option state :=
  Eval vm_compute in
  run_all [create "p0"; create "p1"; create "p2"; create "p3"; create "p4";
           create "x"; DropSession doubling "p4"; DropSession doubling "p3";
           DropSession doubling "p2"; DropSession doubling "p0"; create "f"]
          NewSessionManager.

End SessionManager.

(** ** Action results (actionresult.go, v0.1) *)

Module ActionResultV01.

(** An [*http.Cookie], as far as [Execute] looks at it. *)
Record Cookie := mkCookie { Name : string; Value : string }.

Record ActionResult := mkActionResult {
  StatusCode : Z;
  Headers : gmap string string;
  Cookies : list Cookie;
  Data : list Byte.byte
}.

Definition NewActionResult (data : list Byte.byte) : ActionResult :=
  {| StatusCode := 200; Headers := ∅; Cookies := []; Data := data |}.

(** What [Execute] does to the [http.ResponseWriter] it is given: the calls
    it makes on it, in order. *)
Inductive call :=
| HeaderSet (k v : string)      (* response.Header().Set(k, v) *)
| SetCookie (cookie : Cookie)   (* http.SetCookie(response, cookie) *)
| WriteHeader (code : Z)        (* response.WriteHeader(code) *)
| Write (data : list Byte.byte) (* response.Write(data) *).

(** [Execute]: the calls made and the error returned ([None] is nil).
    Go leaves the order in which [range] visits a map open; [visit] is the
    order taken in this call. *)
Definition Execute (visit : list (string * string)) (result : ActionResult)
  : list call * option string :=
  let headers := (λ kv, HeaderSet kv.1 kv.2) <$> visit in
  let cookies := SetCookie <$> Cookies result in
  if decide (length (Data result) ≤ 0) then
    (headers ++ cookies, Some "No response from request")
  else
    (headers ++ cookies ++ [WriteHeader (StatusCode result); Write (Data result)],
     None).

(** A call that writes the status code or the body. *)
Definition writes_response (c : call) : Prop :=
  match c with
  | WriteHeader _ | Write _ => True
  | HeaderSet _ _ | SetCookie _ => False
  end.

(** [AddHeader]: [result.Headers[key] = val]. The record holds an allocated
    map, as [NewActionResult] builds it; on the nil map of a zero
    [ActionResult] the Go assignment panics. *)
Definition AddHeader (key val : string) (result : ActionResult) : ActionResult :=
  {| StatusCode := StatusCode result; Headers := <[key := val]> (Headers result);
     Cookies := Cookies result; Data := Data result |}.

(** [AddCookie]: [result.Cookies = append(result.Cookies, cookie)]. *)
Definition AddCookie (cookie : Cookie) (result : ActionResult) : ActionResult :=
  {| StatusCode := StatusCode result; Headers := Headers result;
     Cookies := Cookies result ++ [cookie]; Data := Data result |}.

End ActionResultV01.

(** ** Action results (the later actionresult.go) *)

Module ActionResultV03.
Import ActionResultV01.

(** [recover()] outside a deferred function: it returns nil, whether or not
    the goroutine is panicking. *)
Definition recover : option string := None.

(** [Execute] of the later version: headers, cookies, then the status code
    and the body whatever the body is; the error comes from [recover()]. *)
Definition Execute (visit : list (string * string)) (result : ActionResult)
  : list call * option string :=
  let headers := (λ kv, HeaderSet kv.1 kv.2) <$> visit in
  let cookies := SetCookie <$> Cookies result in
  let calls :=
    headers ++ cookies ++ [WriteHeader (StatusCode result); Write (Data result)] in
  match recover with
  | Some r => (calls, Some r)
  | None => (calls, None)
  end.

(** [NewJSONResult]: [marshal] is what [json.Marshal(payload)] returns,
    the bytes and the error (nil is [None]), and [payload_nil] whether the
    payload is nil. The result is the [*ActionResult] (nil is [None]) and
    the error. *)
Definition NewJSONResult (payload_nil : bool)
    (marshal : list Byte.byte * option string)
  : option ActionResult * option string :=
  let '(data, err) := marshal in
  if decide (length data ≤ 0 ∨ payload_nil = true) then
    match err with
    | Some e => (None, Some ("Failed to create json payload: " +:+ e))
    | None => (None, Some "Failed to create json payload")
    end
  else (Some (NewActionResult data), None).

End ActionResultV03.

(** ** Request dispatch

    routemanager.go and controller.go are not among the sources; only the
    route manager's tests are. This module follows the specification of the
    Route Manager and of the Controller pipeline. *)

Module RouteManager.
Import GoSlice SessionManager ActionResultV01.

(** Modelled from the spec: the part of an inbound request dispatch looks
    at. [target] is the request target as sent: path, then an optional
    [?query] and [#fragment]. *)
Record Request := mkRequest {
  method : string;
  target : string;
  cookies : list (string * string)
}.

(** Modelled from the spec: the outcome of a hook or handler, which either
    returns or raises a recoverable fault. *)
Inductive outcome (R : Type) :=
| Returned (r : R)
| Fault (err : string).
Arguments Returned {R} r.
Arguments Fault {R} err.

(** Modelled from the spec: the state of a controller instance that its
    hooks and handlers may change. *)
Record cstate := mkCstate { continue_pipeline : bool; session : ptr }.

(** Modelled from the spec: an action handler takes the parameters and
    yields an Action Result or nil. *)
Definition handler : Type :=
  list string → cstate → outcome (option ActionResult * cstate).

(** Modelled from the spec: the Controller instance of the data model:
    actions by (http method, action name), the four optional hooks, the
    continuation flag and session reference, and the request. *)
Record Controller := mkController {
  actions : list (string * string * handler);
  before_hook : option (cstate → outcome cstate);
  after_hook : option (cstate → outcome cstate);
  error_hook : option (string → ActionResult);
  not_found_hook : option (cstate → option ActionResult);
  cs : cstate;
  request : option Request
}.

Definition with_cs (c : Controller) (s : cstate) : Controller :=
  {| actions := actions c; before_hook := before_hook c;
     after_hook := after_hook c; error_hook := error_hook c;
     not_found_hook := not_found_hook c; cs := s; request := request c |}.

(** Modelled from the spec: the Route Manager: the route table from
    controller name to factory, the default controller name (empty when
    none is configured) and the session-id cookie name. The Session Store
    it owns is threaded through [handle_request] as a [state]. *)
Record RouteManager := mkRouteManager {
  Routes : gmap string (Request → Controller);
  DefaultController : string;
  SessionIDKey : string
}.

(** Modelled from the spec: [register_controller] inserts or overwrites the
    route-table entry. *)
Definition register_controller (name : string) (factory : Request → Controller)
    (m : RouteManager) : RouteManager :=
  {| Routes := <[name := factory]> (Routes m);
     DefaultController := DefaultController m;
     SessionIDKey := SessionIDKey m |}.

(** *** Path segments *)

Definition slash : ascii := "/"%char.

(** The path of a request target: up to the first [?] or [#]. *)
Fixpoint strip_query_fragment (s : string) : string :=
  match s with
  | EmptyString => EmptyString
  | String c rest =>
      if decide (c = "?"%char ∨ c = "#"%char) then EmptyString
      else String c (strip_query_fragment rest)
  end.

(** The components of a path between its slashes. *)
Fixpoint components (s : string) (cur : string) : list string :=
  match s with
  | EmptyString => [String.rev cur]
  | String c rest =>
      if decide (c = slash) then String.rev cur :: components rest EmptyString
      else components rest (String c cur)
  end.

Fixpoint drop_empty (l : list string) : list string :=
  match l with
  | EmptyString :: rest => drop_empty rest
  | _ => l
  end.

(** Modelled from the spec, step 1 of [handle_request]: the path is split
    into segments, skipping empty leading and trailing components, after
    the query string and fragment are stripped. *)
Definition segments (tgt : string) : list string :=
  let cs := components (strip_query_fragment tgt) EmptyString in
  reverse (drop_empty (reverse (drop_empty cs))).

(** *** Reserved names *)

Definition reserved_names : list string :=
  ["controllers"; "views"; "models"; "emails"].

Definition lower_ascii (c : ascii) : ascii :=
  let n := nat_of_ascii c in
  if decide (65 ≤ n ∧ n ≤ 90) then ascii_of_nat (n + 32) else c.

Fixpoint lower (s : string) : string :=
  match s with
  | EmptyString => EmptyString
  | String c rest => String (lower_ascii c) (lower rest)
  end.

(** Modelled from the spec: a segment case-matches a reserved name when it
    equals it up to the case of its letters. *)
Definition reserved (seg : string) : bool :=
  bool_decide (lower seg ∈ reserved_names).

(** *** The Controller pipeline *)

(** Modelled from the spec: the built-in default results: status 404 with
    the plain-text body "Not Found", and status 500 (the spec fixes no body
    for it). *)
Definition default_not_found : ActionResult :=
  {| StatusCode := 404; Headers := ∅; Cookies := [];
     Data := String.list_byte_of_string "Not Found" |}.

Definition default_error : ActionResult :=
  {| StatusCode := 500; Headers := ∅; Cookies := []; Data := [] |}.

(** Modelled from the spec, state NotFound: the hook's result when a hook is
    registered and its result is not empty, else the built-in default. *)
Definition not_found_path (c : Controller) (s : cstate) : ActionResult :=
  match not_found_hook c with
  | Some hook => default default_not_found (hook s)
  | None => default_not_found
  end.

(** Modelled from the spec, state Error: the hook's result for the
    triggering fault when a hook is registered, else the built-in
    default. *)
Definition error_path (c : Controller) (err : string) : ActionResult :=
  match error_hook c with
  | Some hook => hook err
  | None => default_error
  end.

(** Modelled from the spec: action lookup by HTTP method and action name;
    an action registered under the empty method is the wildcard (the tests
    register theirs so) and answers every method. The name of the request
    is matched with the registered one up to the case of its letters:
    scenario 1 of the spec and [TestRouteManager_HandleRequest] ask for
    /test/index and get the answer of the action registered as "Index". *)
Fixpoint lookup_action (acts : list (string * string * handler))
    (m name : string) : option handler :=
  match acts with
  | [] => None
  | (m', name', h) :: rest =>
      if decide (lower name' = lower name ∧ (m' = m ∨ m' = ""))
      then Some h else lookup_action rest m name
  end.


(** Modelled from the spec, section 4.2: Created, BeforeHook, Gated,
    ActionDispatch, AfterHook, Done, with the side exits NotFound and
    Error. [None] is the gate's "no result". *)
Definition run_pipeline (c : Controller) (m action : string)
    (params : list string) : option ActionResult :=
  let created := {| continue_pipeline := false; session := session (cs c) |} in
  let before :=
    match before_hook c with
    | Some hook => hook created
    | None => Returned {| continue_pipeline := true; session := session created |}
    end in
  match before with
  | Fault err => Some (error_path c err)
  | Returned s =>
      if continue_pipeline s then
        match lookup_action (actions c) m action with
        | None => Some (not_found_path c s)
        | Some h =>
            match h params s with
            | Fault err => Some (error_path c err)
            | Returned (None, s') => Some (not_found_path c s')
            | Returned (Some result, s') =>
                match after_hook c with
                | None => Some result
                | Some hook =>
                    match hook s' with
                    | Fault err => Some (error_path c err)
                    | Returned _ => Some result
                    end
                end
            end
        end
      else None
  end.

(** *** Sessions of a request *)

Section dispatch.
Variable growcap : nat → nat → nat.

(** The Error hook path as it answers a routing refusal. The spec has the
    refusal invoke it with a descriptive error and does not say whose hook
    answers while no controller is resolved, so it is left open here. *)
Variable refusal_path : string → ActionResult.

(** A static file tree: the bytes of the file at a path under the
    application root, if there is one. *)
Variable files : list string → option (list Byte.byte).

(** Modelled from the spec: the refresh of a session's activity stamp, a
    step of its own tied to request handling. *)
Definition touch (now : Z) (a : nat) (st : state) : option state :=
  r ← objs st !! a;
  Some (set_objs (<[a := {| ID := ID r; Values := Values r;
                            ActivityDate := now |}]> (objs st)) st).

(** Modelled from the spec, section 6: the session of a request is the one
    its session-id cookie names; with no such cookie, or an ID the store
    does not know, a new session is created under the externally
    generated [fresh_id] and a new cookie is set on the response. *)
Definition resolve_session (now : Z) (fresh_id key : string) (req : Request)
    (st : state) : option (ptr * option Cookie * state) :=
  let create :=
    '(p, st') ← CreateSession growcap now fresh_id st;
    Some (p, Some (mkCookie key fresh_id), st') in
  match (list_to_map (cookies req) : gmap string string) !! key with
  | None => create
  | Some id =>
      '(res, st1) ← GetSession id st;
      match res with
      | Some a => st2 ← touch now a st1; Some (Some a, None, st2)
      | None => create
      end
  end.

(** Modelled from the spec: [set_controller_sessions] injects the
    request's session into the controller instance; it errors if the
    controller or its request is absent. The error is a value handed back
    to the caller. *)
Definition set_controller_sessions (now : Z) (fresh_id key : string)
    (c : option Controller) (st : state)
    : option ((string + Controller * option Cookie) * state) :=
  match c with
  | None => Some (inl "controller absent", st)
  | Some c =>
      match request c with
      | None => Some (inl "request absent", st)
      | Some req =>
          '(p, cookie, st') ← resolve_session now fresh_id key req st;
          Some (inr (with_cs c {| continue_pipeline := continue_pipeline (cs c);
                                  session := p |}, cookie), st')
      end
  end.

(** *** Resolution and dispatch *)

(** Modelled from the spec, step 3: segment 0 names the controller when a
    factory is registered under it, and the remaining segments are action
    and parameters; else the default controller, when configured and
    registered, answers and ALL segments are action and parameters. *)
Definition resolve (m : RouteManager) (segs : list string)
  : option ((Request → Controller) * list string) :=
  match head segs ≫= (Routes m !!.) with
  | Some factory => Some (factory, tail segs)
  | None =>
      if decide (DefaultController m = "") then None
      else factory ← Routes m !! DefaultController m; Some (factory, segs)
  end.

(** Modelled from the spec, static file fallback: nothing is served for
    the empty or root path, for a path under or into a reserved name, or
    when no file exists; else the file's bytes with status 200. *)
Definition serve_file (segs : list string) : option ActionResult :=
  if decide (segs = []) then None
  else if existsb reserved segs then None
  else NewActionResult <$> files segs.

(** Modelled from the spec: how a request was answered, and with what:
    through a controller's pipeline, with a static file, on the Error hook
    path, or not at all, the integration error going back to the caller. *)
Inductive answer :=
| ByController (result : ActionResult) (cookie : option Cookie)
| ByFile (result : ActionResult)
| ByErrorPath (result : ActionResult)
| Failed (err : string).

(** Modelled from the spec, section 4.1, [handle_request], steps 1 to 7.
    The result is the answer written to the response sink, or the
    integration error handed back instead, and the session store after
    the request. *)
Definition handle_request (now : Z) (fresh_id : string) (m : RouteManager)
    (req : Request) (st : state) : option (answer * state) :=
  let segs := segments (target req) in
  if default false (reserved <$> head segs) then
    Some (ByErrorPath (refusal_path "refused: reserved path"), st)
  else
    match resolve m segs with
    | None =>
        match serve_file segs with
        | Some result => Some (ByFile result, st)
        | None => Some (ByErrorPath (refusal_path "no controller"), st)
        end
    | Some (factory, rest) =>
        let action := default "Index" (head rest) in
        let params := tail rest in
        '(injected, st') ← set_controller_sessions now fresh_id
                             (SessionIDKey m) (Some (factory req)) st;
        match injected with
        | inl err => Some (Failed err, st')
        | inr (c, cookie) =>
            let result :=
              default (not_found_path c (cs c))
                      (run_pipeline c (method req) action params) in
            Some (ByController result cookie, st')
        end
    end.
End dispatch.

(** *** The test controller of the route manager's tests *)

Definition bytes (s : string) : list Byte.byte := String.list_byte_of_string s.

(** [newRMTestController]: the before and after hooks set
    [ContinuePipeline], the error and not-found hooks answer "Error" and
    "Not Found", and [Index], [NotFound] and [DefaultNotFound] are
    registered under the empty method. [DefaultNotFound] unregisters the
    not-found hook before returning nil, which this controller record
    cannot express; it is left out. *)
Definition newRMTestController (req : Request) : Controller :=
  let on s := Returned {| continue_pipeline := true; session := session s |} in
  {| actions :=
       [("", "Index", λ _ s, Returned (Some (NewActionResult (bytes "Test Data")), s));
        ("", "NotFound", λ _ s, Returned (None, s))];
     before_hook := Some on;
     after_hook := Some on;
     error_hook := Some (λ _, NewActionResult (bytes "Error"));
     not_found_hook := Some (λ _, Some (NewActionResult (bytes "Not Found")));
     cs := {| continue_pipeline := false; session := nil |};
     request := Some req |}.

(** The manager of [TestRouteManager_HandleRequest]: the test controller
    registered as "test" and set as default. The cookie name stands for
    the manager's default. *)
Definition test_manager : RouteManager :=
  {| Routes := {[ "test" := newRMTestController ]};
     DefaultController := "test";
     SessionIDKey := "SessionID" |}.

(** The custom error page of the test controller, as the answer to a
    refusal. *)
Definition test_refusal (err : string) : ActionResult :=
  NewActionResult (bytes "Error").

(** The file tree of [TestRouteManager_ServeFile]: a template under the
    application root at views/index.htm. *)
Definition views_file_tree (path : list string) : option (list Byte.byte) :=
  if decide (path = ["views"; "index.htm"]) then Some (bytes "Oh nos?") else None.

(** [&mvcapp.Controller{}] of [TestRouteManager_SetControllerSessions]: a
    controller with nothing set, its request included. *)
Definition empty_controller : Controller :=
  {| actions := []; before_hook := None; after_hook := None;
     error_hook := None; not_found_hook := None;
     cs := {| continue_pipeline := false; session := nil |};
     request := None |}.

End RouteManager.

(** ** Helpers: templates, random strings, application path, logging *)

Module Util.

(** *** Template lookup *)

Section templates.
(** [os.IsNotExist(err)] for the error [os.Stat(path)] returns: whether the
    file system reports that nothing exists at [path]. *)
Variable missing : string → bool.

(** What [GetApplicationPath()] returns during the call. *)
Variable root : string.

(** [fmt.Sprintf("%s/views/%s", GetApplicationPath(), template)] and its
    three siblings. *)
Definition viewPath (template : string) : string :=
  root +:+ "/views/" +:+ template.

Definition controllerPath (controllerName template : string) : string :=
  root +:+ "/views/" +:+ controllerName +:+ "/" +:+ template.

Definition sharedPath (template : string) : string :=
  root +:+ "/views/shared/" +:+ template.

Definition sharedControllerPath (controllerName template : string) : string :=
  root +:+ "/views/shared/" +:+ controllerName +:+ "/" +:+ template.

Definition TemplateExists (controllerName template : string) : bool :=
  if negb (missing template) then true
  else if negb (missing (viewPath template)) then true
  else if negb (missing (controllerPath controllerName template)) then true
  else if negb (missing (sharedPath template)) then true
  else if negb (missing (sharedControllerPath controllerName template)) then true
  else false.

(** The body of [MakeTemplateList]'s loop, on the list built so far. *)
Definition MakeTemplateList_body (controllerName : string) (rtn : list string)
    (template : string) : list string :=
  if negb (missing template) then rtn ++ [template]
  else if negb (missing (viewPath template)) then rtn ++ [viewPath template]
  else if negb (missing (controllerPath controllerName template))
       then rtn ++ [controllerPath controllerName template]
  else if negb (missing (sharedPath template)) then rtn ++ [sharedPath template]
  else if negb (missing (sharedControllerPath controllerName template))
       then rtn ++ [sharedControllerPath controllerName template]
  else rtn.

Definition MakeTemplateList (controllerName : string) (templates : list string)
  : list string :=
  foldl (MakeTemplateList_body controllerName) [] templates.

(** The five places a template is looked for, in the order tried. *)
Definition candidates (controllerName template : string) : list string :=
  [template; viewPath template; controllerPath controllerName template;
   sharedPath template; sharedControllerPath controllerName template].
End templates.

(** *** Random strings *)

Definition letterBytes : string := "ABCDEFGHIJKLMNOPQRSTUVWXYZ0123456789".
Definition letterIDBits : Z := 6.
Definition letterIDMask : Z := Z.shiftl 1 letterIDBits - 1.
Definition letterIDMax : Z := 63 / letterIDBits.

(** How a call ends: it returns, it panics, or it is still running when the
    iterations allowed to it are used up. *)
Inductive run (A : Type) :=
| Done (a : A)
| Panicked
| OutOfFuel.
Arguments Done {A} a.
Arguments Panicked {A}.
Arguments OutOfFuel {A}.

(** [letterBytes[id]] *)
Definition letter (id : Z) : ascii :=
  default "000"%char (String.get (Z.to_nat id) letterBytes).

(** The loop of [RandomString]. [src] is the sequence of values
    [randomizer.Int63()] returns from the call on and [calls] how many of
    them have been drawn; [fuel] bounds the iterations. The loop condition
    [i >= 0] is tested before each iteration; [data[i] = ...] panics when
    [i] is not below the length of [data]. *)
Fixpoint RandomString_loop (fuel : nat) (src : nat → Z) (calls : nat)
    (i cache remain : Z) (data : list ascii) : run (list ascii * nat) :=
  if decide (0 ≤ i)%Z then
    match fuel with
    | 0 => OutOfFuel
    | S fuel =>
        let '(cache, remain, calls) :=
          if decide (remain = 0)%Z then (src calls, letterIDMax, S calls)
          else (cache, remain, calls) in
        let id := Z.land cache letterIDMask in
        if decide (id < Z.of_nat (String.length letterBytes))%Z then
          if decide (Z.to_nat i < length data) then
            RandomString_loop fuel src calls (i - 1)%Z
              (Z.shiftr cache letterIDBits) (remain - 1)%Z
              (<[Z.to_nat i := letter id]> data)
          else Panicked
        else
          RandomString_loop fuel src calls i (Z.shiftr cache letterIDBits)
            (remain - 1)%Z data
    end
  else Done (data, calls).

(** The largest length [make([]byte, length)] accepts on linux/amd64: the
    runtime's [maxAlloc], 2^48 bytes. *)
Definition maxAlloc_amd64 : Z := 281474976710656.

(** [RandomString(length)]: [make([]byte, length)] panics on a negative
    length and on one above [maxAlloc], the most the runtime allocates in
    one piece ([runtime.makeslice]: len out of range); the result is the
    string and the number of values drawn. *)
Definition RandomString (maxAlloc : Z) (fuel : nat) (src : nat → Z)
    (length : Z) : run (string * nat) :=
  if decide (length < 0 ∨ maxAlloc < length)%Z then Panicked
  else
    match RandomString_loop fuel src 1 (length - 1)%Z (src 0) letterIDMax
            (replicate (Z.to_nat length) "000"%char) with
    | Done (data, calls) => Done (String.string_of_list_ascii data, calls)
    | Panicked => Panicked
    | OutOfFuel => OutOfFuel
    end.

(** The [k]-th group of six bits the loop looks at: ten groups are taken
    from each value drawn, from the low bits up. *)
Definition chunk (src : nat → Z) (k : nat) : Z :=
  Z.land (Z.shiftr (src (k / 10)) (6 * Z.of_nat (k mod 10))) 63.

(** The groups that index a letter, among the first [m]. *)
Definition accepted (src : nat → Z) (m : nat) : list Z :=
  filter (λ c, (c < 36)%Z) (chunk src <$> seq 0 m).

(** Filling [data] downwards from index [i] with the letters of the groups
    of [cs] that index one, until [i] is below zero. *)
Fixpoint fill (cs : list Z) (i : Z) (data : list ascii) : Z * list ascii :=
  match cs with
  | [] => (i, data)
  | c :: cs =>
      if decide (0 ≤ i)%Z then
        if decide (c < 36)%Z
        then fill cs (i - 1)%Z (<[Z.to_nat i := letter c]> data)
        else fill cs i data
      else (i, data)
  end.

(** What the loop holds when it comes to group [k]: either the ten groups
    of the last value drawn are used up, or [cache] holds what is left of
    the value the group is taken from. *)
Definition aligned (src : nat → Z) (k calls : nat) (cache remain : Z) : Prop :=
  (remain = 0%Z ∧ k mod 10 = 0 ∧ calls = k / 10 ∧ 0 < k)
  ∨ (remain = (10 - Z.of_nat (k mod 10))%Z
     ∧ cache = Z.shiftr (src (k / 10)) (6 * Z.of_nat (k mod 10))
     ∧ calls = S (k / 10)).

(** Two sources to run the loop on: one that counts up from a fixed value,
    and one that returns the largest value of [Int63] every time, all of
    whose groups are 63. *)
Definition counting_source (k : nat) : Z :=
  (1234567890123456789 + Z.of_nat k)%Z.
Definition stuck_source (k : nat) : Z := 9223372036854775807%Z.

(** *** The application path *)

(** [GetApplicationPath]: [abs] is what
    [filepath.Abs(filepath.Dir(os.Args[0]))] returns, the directory and the
    error (nil is [None]); [appPath] is the package variable. The result is
    the value returned and the variable after the call. *)
Definition GetApplicationPath (abs : string * option string) (appPath : string)
  : string * string :=
  if decide (appPath = "") then
    let '(dir, err) := abs in
    let appPath := match err with Some _ => "." | None => appPath end in
    let appPath := dir in
    (appPath, appPath)
  else (appPath, appPath).

(** *** Logging *)

Definition LogLevelNone : Z := 0.
Definition LogLevelError : Z := 1.
Definition LogLevelWarning : Z := 2.
Definition LogLevelInfo : Z := 3.
Definition LogLevelTrace : Z := 4.

(** The package variables [LogFilename] and [LogLevel]. *)
Record logging := mkLogging { LogFilename : string; LogLevel : Z }.

Definition initial_logging : logging :=
  {| LogFilename := ""; LogLevel := LogLevelError |}.

Definition GetLogFilename (st : logging) : string := LogFilename st.

Definition SetLogFilename (filename : string) (st : logging) : logging :=
  {| LogFilename := filename; LogLevel := LogLevel st |}.

Definition GetLogLevel (st : logging) : Z := LogLevel st.

Definition SetLogLevel (level : Z) (st : logging) : logging :=
  {| LogFilename := LogFilename st; LogLevel := level |}.

(** The calls a logging function makes on the operating system. *)
Inductive os_call :=
| OpenFile (name : string)           (* os.OpenFile(name, O_CREATE|O_RDWR|O_APPEND, 0660) *)
| WriteString (name text : string)   (* f.WriteString(text) *)
| Close (name : string)              (* the deferred f.Close() *).

(** What the operating system answers: the error of opening a file and of
    writing a text to it (nil is [None]). *)
Record os_answers := mkAnswers {
  open_error : string → option string;
  write_error : string → string → option string
}.

Definition crlf : string := String "013"%char (String "010"%char EmptyString).

Section logging.
Variable os : os_answers.
(** [time.Now().String()] at the call. *)
Variable now : string.

Definition LogMessage (message : string) (st : logging)
  : list os_call * option string :=
  if decide (LogLevel st < LogLevelInfo)%Z then
    ([], Some "Failed to write information message due to log level")
  else if decide (LogFilename st = "") then
    ([], Some "Failed to write information message due to log filename")
  else
    let f := LogFilename st in
    match open_error os f with
    | Some err => ([OpenFile f], Some err)
    | None =>
        let text := "[" +:+ now +:+ "] Information: " +:+ message +:+ crlf in
        match write_error os f text with
        | Some err => ([OpenFile f; WriteString f text; Close f], Some err)
        | None => ([OpenFile f; WriteString f text; Close f], None)
        end
    end.

Definition LogWarning (message : string) (st : logging)
  : list os_call * option string :=
  if decide (LogLevel st < LogLevelWarning)%Z then
    ([], Some "Failed to write warning message due to log level")
  else if decide (LogFilename st = "") then
    ([], Some "Failed to write warning message due to log filename")
  else
    let f := LogFilename st in
    match open_error os f with
    | Some err => ([OpenFile f], None)
    | None =>
        let text := "[" +:+ now +:+ "] Warning: " +:+ message +:+ crlf in
        match write_error os f text with
        | Some err => ([OpenFile f; WriteString f text; Close f], Some err)
        | None => ([OpenFile f; WriteString f text; Close f], None)
        end
    end.

Definition LogError (message : string) (st : logging)
  : list os_call * option string :=
  if decide (LogLevel st < LogLevelError)%Z then
    ([], Some "Failed to write error message due to log level")
  else if decide (LogFilename st = "") then
    ([], Some "Failed to write error message due to log filename")
  else
    let f := LogFilename st in
    match open_error os f with
    | Some err => ([OpenFile f], Some err)
    | None =>
        let text :=
          "[" +:+ now +:+ "] Critical: " +:+ message +:+ crlf +:+ crlf in
        match write_error os f text with
        | Some err => ([OpenFile f; WriteString f text; Close f], Some err)
        | None => ([OpenFile f; WriteString f text; Close f], None)
        end
    end.

Definition TraceLog (message : string) (st : logging)
  : list os_call * option string :=
  if decide (LogLevel st < LogLevelTrace)%Z then
    ([], Some "Failed to write trace log message due to log level")
  else if decide (LogFilename st = "") then
    ([], Some "Failed to write trace log message due to log filename")
  else
    let f := LogFilename st in
    match open_error os f with
    | Some err => ([OpenFile f], Some err)
    | None =>
        let text :=
          "[" +:+ now +:+ "] Debug Trace: " +:+ message +:+ crlf +:+ crlf in
        match write_error os f text with
        | Some err => ([OpenFile f; WriteString f text; Close f], Some err)
        | None => ([OpenFile f; WriteString f text; Close f], None)
        end
    end.
End logging.

(** The calls of one logging function on the file [f], with the error it
    returns: none and an error; or an open that failed; or an open that
    succeeded, one write and the close, with the error of the write. *)
Definition bracketed (os : os_answers) (f : string)
    (r : list os_call * option string) : Prop :=
  match r.1 with
  | [] => is_Some r.2
  | [OpenFile n] => n = f ∧ is_Some (open_error os f)
  | [OpenFile n; WriteString n' text; Close n''] =>
      n = f ∧ n' = f ∧ n'' = f ∧ open_error os f = None
      ∧ r.2 = write_error os f text
  | _ => False
  end.

End Util.

(** ** Facts about slices *)

Module SliceFacts.
Import GoSlice.

Lemma list_inserts_spec {A} (i : nat) (k l : list A) :
  i + length k ≤ length l →
  list_inserts i k l = take i l ++ k ++ drop (i + length k) l.
Proof.
  intros Hle.
  rewrite <- (take_drop i l) at 1.
  rewrite <- (take_drop (length k) (drop i l)).
  replace i with (length (take i l) + 0) at 1 by (rewrite length_take; lia).
  rewrite list_inserts_app_r, list_inserts_0_r, drop_drop; [done|].
  rewrite length_take, length_drop. lia.
Qed.

Lemma lookup_backing (h : arrays) s :
  s_arr s < length h → h !! s_arr s = Some (backing h s).
Proof.
  intros Hlt. unfold backing.
  destruct (lookup_lt_is_Some_2 h (s_arr s) Hlt) as [b ->]. done.
Qed.

Lemma length_elems (h : arrays) s :
  wf_slice h s → length (elems h s) = s_len s.
Proof.
  intros [_ Hb]. unfold elems. rewrite length_take, length_drop. lia.
Qed.

Lemma slice_from_Some s lo s' :
  slice_from s lo = Some s' →
  lo ≤ s_len s ∧ s' = Slice (s_arr s) (s_off s + lo) (s_len s - lo).
Proof. unfold slice_from. case_decide; naive_solver. Qed.

Lemma slice_from_elems (h : arrays) s lo s' :
  slice_from s lo = Some s' → elems h s' = drop lo (elems h s).
Proof.
  intros [Hle ->]%slice_from_Some. unfold elems, backing. simpl.
  by rewrite skipn_firstn_comm, drop_drop.
Qed.

Lemma slice_from_wf (h : arrays) s lo s' :
  slice_from s lo = Some s' → wf_slice h s → wf_slice h s'.
Proof.
  intros [Hle ->]%slice_from_Some [Ha Hb].
  split; simpl; [done|]. unfold backing in *. simpl. lia.
Qed.

Lemma slice_to_Some (h : arrays) s hi s' :
  slice_to h s hi = Some s' →
  hi ≤ cap h s ∧ s' = Slice (s_arr s) (s_off s) hi.
Proof. unfold slice_to. case_decide; naive_solver. Qed.

Lemma slice_to_elems (h : arrays) s hi s' :
  slice_to h s hi = Some s' → hi ≤ s_len s →
  elems h s' = take hi (elems h s).
Proof.
  intros [_ ->]%slice_to_Some Hle. unfold elems, backing. simpl.
  rewrite take_take. f_equal. lia.
Qed.

Lemma slice_to_wf (h : arrays) s hi s' :
  slice_to h s hi = Some s' → hi ≤ s_len s → wf_slice h s → wf_slice h s'.
Proof.
  intros [_ ->]%slice_to_Some Hle [Ha Hb].
  split; simpl; [done|]. unfold backing in *. simpl. lia.
Qed.

Lemma index_Some (h : arrays) s i x :
  index h s i = Some x → i < s_len s ∧ elems h s !! i = Some x.
Proof.
  unfold index, elems. case_decide; [|done]. intros Hx. split; [done|].
  rewrite lookup_take_lt by done. by rewrite lookup_drop.
Qed.

Lemma index_elems (h : arrays) s i :
  wf_slice h s → index h s i = elems h s !! i.
Proof.
  intros Hwf. unfold index. case_decide as Hi.
  - unfold elems. rewrite lookup_take_lt by done. by rewrite lookup_drop.
  - symmetry. apply lookup_ge_None. rewrite length_elems by done. lia.
Qed.

Section append.
Variable growcap : nat → nat → nat.

Lemma append_spec (h h' : arrays) s s' xs :
  wf_slice h s → append growcap h s xs = (h', s') →
  elems h' s' = elems h s ++ xs ∧ wf_slice h' s'
  ∧ s_len s' = s_len s + length xs.
Proof.
  intros [Ha Hb]. unfold append, cap. case_decide as Hroom; intros [= <- <-].
  - assert (backing (<[s_arr s:=list_inserts (s_off s + s_len s) xs (backing h s)]> h)
              (Slice (s_arr s) (s_off s) (s_len s + length xs))
            = list_inserts (s_off s + s_len s) xs (backing h s)) as Hback.
    { unfold backing at 1. simpl. by rewrite list_lookup_insert_eq. }
    split_and!; [|split|done]; simpl.
    + unfold elems at 1. rewrite Hback. simpl.
      rewrite list_inserts_spec by lia.
      rewrite drop_app_le by (rewrite length_take; lia).
      rewrite <- take_drop_commute.
      rewrite take_app_add' by (rewrite length_take, length_drop; lia).
      unfold elems. by rewrite take_app_length.
    + rewrite length_insert. done.
    + rewrite Hback, length_inserts. lia.
  - assert (∀ b, backing (h ++ [b]) (Slice (length h) 0 (s_len s + length xs)) = b)
      as Hback.
    { intros b. unfold backing. simpl.
      rewrite lookup_app_r by done. by rewrite Nat.sub_diag. }
    split_and!; [|split|done]; simpl.
    + unfold elems at 1. rewrite Hback. simpl. rewrite app_assoc.
      apply take_app_length'.
      rewrite length_app, length_elems by done. done.
    + rewrite length_app. simpl. lia.
    + rewrite Hback, !length_app, length_elems by done. lia.
Qed.
(** What a slice [r] of the arrays before the call finds in its backing
    array after it: the written cells when [r] shares the array appended to
    in place, and what it found before otherwise. *)
Lemma append_backing (h h' : arrays) s s' xs r :
  wf_slice h s → append growcap h s xs = (h', s') → s_arr r < length h →
  backing h' r =
    if decide (s_arr r = s_arr s ∧ s_len s + length xs ≤ cap h s)
    then list_inserts (s_off s + s_len s) xs (backing h s)
    else backing h r.
Proof.
  intros [Ha Hb] Happ Hr. unfold append in Happ.
  case_decide as Hroom; injection Happ as <- <-.
  - unfold backing at 1. destruct (decide (s_arr r = s_arr s)) as [Heq|Hne].
    + rewrite Heq, list_lookup_insert_eq by done. simpl.
      by rewrite decide_True.
    + rewrite list_lookup_insert_ne by done.
      rewrite decide_False by (by intros [? _]). done.
  - unfold backing at 1. rewrite lookup_app_l by done.
    rewrite decide_False by (by intros [_ ?]). done.
Qed.
End append.

End SliceFacts.

(** ** Facts about the session store *)

Module SessionFacts.
Import GoSlice SessionManager SliceFacts.

Lemma submseteq_NoDup {A} (l k : list A) : l ⊆+ k → NoDup k → NoDup l.
Proof.
  intros [k' Hk]%submseteq_Permutation Hnd. rewrite Hk in Hnd.
  by apply NoDup_app in Hnd as [? _].
Qed.

Lemma submseteq_Forall {A} (P : A → Prop) (l k : list A) :
  l ⊆+ k → Forall P k → Forall P l.
Proof.
  intros [k' Hk]%submseteq_Permutation HP. rewrite Hk in HP.
  by apply Forall_app in HP as [? _].
Qed.

Lemma rotate_submseteq {A} (l : list A) x :
  l !! 0 = Some x → drop 2 l ++ [x] ⊆+ l.
Proof.
  destruct l as [|y [|z l]]; intros [= ->]; simpl; [done|].
  rewrite <- Permutation_cons_append. apply submseteq_skip, submseteq_cons. done.
Qed.

(** What the store holds shrinks to a part of what it held: the step from
    which every removal keeps the invariant. *)
Lemma unique_ids_shrink st st' :
  unique_ids st → wf_slice (arrs st') (Sessions st') →
  objs st' = objs st → held st' ⊆+ held st → unique_ids st'.
Proof.
  intros [[Hwf Hall] Hnd] Hwf' Hobjs Hsub.
  assert (∀ p, deref st' p = deref st p) as Hderef.
  { intros p. unfold deref. by rewrite Hobjs. }
  split; [split; [done|]|].
  - eapply submseteq_Forall; [done|].
    eapply Forall_impl; [done|]. intros p. simpl. by rewrite Hderef.
  - eapply submseteq_NoDup; [|done]. unfold ids.
    erewrite (list_fmap_ext _ (λ p, ID <$> deref st p)).
    + by apply fmap_submseteq.
    + intros _ p _. simpl. by rewrite Hderef.
Qed.

(** What [GetSession]'s loop returns, when it returns: the first pointer
    whose record carries [id], or nil when none does. *)
Lemma GetSession_range_sound st id vals res :
  GetSession_range st id vals = Some res →
  match res with
  | None => Forall (λ p, ID <$> deref st p ≠ Some id) vals
  | Some a =>
      ∃ i s, vals !! i = Some (Some a) ∧ objs st !! a = Some s ∧ ID s = id
        ∧ Forall (λ p, ID <$> deref st p ≠ Some id) (take i vals)
  end.
Proof.
  revert res. induction vals as [|p vals IH]; intros res; simpl.
  { intros [= <-]. unfold nil. constructor. }
  destruct (deref st p) as [s|] eqn:Hs; [|done]. simpl. case_decide as Hid.
  - intros [= <-]. destruct p as [a|]; [|done]. exists 0, s. by split_and!.
  - intros Hres. specialize (IH res Hres).
    assert (ID <$> deref st p ≠ Some id) as Hp.
    { rewrite Hs. simpl. congruence. }
    destruct res as [a|].
    + destruct IH as (i & s' & ? & ? & ? & ?).
      exists (S i), s'. split_and!; [done|done|done|]. simpl. by constructor.
    + by constructor.
Qed.

(** It returns when every pointer it walks over refers to a session. *)
Lemma GetSession_range_total st id vals :
  Forall (λ p, is_Some (deref st p)) vals →
  is_Some (GetSession_range st id vals).
Proof.
  induction 1 as [|p vals [s Hs] _ IH]; simpl; [done|].
  rewrite Hs. simpl. by case_decide.
Qed.

Lemma GetSession_range_spec st id vals :
  Forall (λ p, is_Some (deref st p)) vals →
  ∃ res, GetSession_range st id vals = Some res ∧
    match res with
    | None => Forall (λ p, ID <$> deref st p ≠ Some id) vals
    | Some a =>
        ∃ i s, vals !! i = Some (Some a) ∧ objs st !! a = Some s ∧ ID s = id
          ∧ Forall (λ p, ID <$> deref st p ≠ Some id) (take i vals)
    end.
Proof.
  intros Hall. destruct (GetSession_range_total st id vals Hall) as [res Hres].
  exists res. split; [done|]. by apply GetSession_range_sound.
Qed.

Lemma Contains_range_spec st id vals :
  Forall (λ p, is_Some (deref st p)) vals →
  ∃ b, Contains_range st id vals = Some b ∧
    (b = true ↔ Some id ∈ (λ p, ID <$> deref st p) <$> vals).
Proof.
  induction 1 as [|p vals [s Hs] _ (b & Hb & IH)]; simpl.
  { exists false. split; [done|]. split; [done|]. by intros ?%elem_of_nil. }
  rewrite Hs. simpl. case_decide as Hid.
  - exists true. split; [done|]. split; [|done]. intros _. subst id. left.
  - exists b. split; [done|]. rewrite IH, elem_of_cons. split; [by right|].
    intros [[=]|]; done.
Qed.

(** Dereferences that agree on the held pointers give the same IDs. *)
Lemma ids_agree st st' :
  held st' = held st →
  Forall (λ p, ID <$> deref st' p = ID <$> deref st p) (held st) →
  ids st' = ids st.
Proof.
  intros Hheld Hagree. unfold ids. rewrite Hheld.
  apply list_eq_Forall2, Forall2_fmap, Forall_Forall2_diag. done.
Qed.

Section upsert.
Variable growcap : nat → nat → nat.

Lemma CreateSession_spec now id st :
  valid st →
  ∃ st', CreateSession growcap now id st = Some (Some (length (objs st)), st')
    ∧ objs st' = objs st ++ [mkSession id [] now]
    ∧ held st' = held st ++ [Some (length (objs st))]
    ∧ wf_slice (arrs st') (Sessions st').
Proof.
  intros [Hwf Hall]. unfold CreateSession. simpl.
  destruct (append _ _ _ _) as [h' s'] eqn:Happ.
  destruct (append_spec growcap _ _ _ _ _ Hwf Happ) as (He & Hwf' & Hlen).
  simpl. rewrite index_elems by done. rewrite He.
  rewrite lookup_app_r by (rewrite length_elems by done; lia).
  rewrite length_elems, Nat.sub_diag by done. simpl.
  eexists. split_and!; [reflexivity|reflexivity|exact He|exact Hwf'].
Qed.

Lemma deref_grow st st' extra p :
  objs st' = objs st ++ extra → is_Some (deref st p) →
  deref st' p = deref st p.
Proof.
  intros Hobjs [s Hs]. unfold deref in *. rewrite Hobjs.
  destruct p as [a|]; [|done]. simpl in *.
  apply lookup_app_l. by eapply lookup_lt_Some.
Qed.

Lemma CreateSession_ids now id st r st' :
  valid st → CreateSession growcap now id st = Some (r, st') →
  valid st' ∧ ids st' = ids st ++ [Some id].
Proof.
  intros Hv Hcreate.
  destruct (CreateSession_spec now id st Hv) as (st2 & Heq & Hobjs & Hheld & Hwf).
  rewrite Heq in Hcreate. injection Hcreate as <- <-.
  destruct Hv as [_ Hall].
  assert (deref st2 (Some (length (objs st))) = Some (mkSession id [] now))
    as Hnew.
  { unfold deref. simpl. rewrite Hobjs.
    rewrite lookup_app_r by done. by rewrite Nat.sub_diag. }
  split; [split; [done|]|].
  - rewrite Hheld. apply Forall_app. split.
    + eapply Forall_impl; [done|]. intros p Hp. simpl.
      by rewrite (deref_grow st st2 _ p Hobjs Hp).
    + constructor; [|done]. by rewrite Hnew.
  - unfold ids. rewrite Hheld, fmap_app.
    f_equal; [|by cbn [fmap list_fmap]; rewrite Hnew].
    apply list_eq_Forall2, Forall2_fmap, Forall_Forall2_diag.
    eapply Forall_impl; [done|]. intros p Hp. simpl.
    by rewrite (deref_grow st st2 _ p Hobjs Hp).
Qed.

(** What [SetSession] does, by what [GetSession] finds. *)
Lemma SetSession_spec session s st :
  valid st → deref st session = Some s →
  ∃ res st', GetSession (ID s) st = Some (res, st)
    ∧ SetSession growcap session st = Some st'
    ∧ match res with
      | Some a =>
          ∃ r, objs st !! a = Some r
            ∧ st' = set_objs (<[a := mkSession (ID r) (Values s) (ActivityDate r)]>
                                (objs st)) st
      | None =>
          objs st' = objs st ∧ held st' = held st ++ [session]
          ∧ wf_slice (arrs st') (Sessions st')
          ∧ Some (ID s) ∉ ids st
      end.
Proof.
  intros [Hwf Hall] Hs.
  destruct (GetSession_range_spec st (ID s) (held st) Hall) as (res & Hres & Hfound).
  unfold SetSession, GetSession. rewrite Hs. simpl. rewrite Hres. simpl.
  exists res. destruct res as [a|].
  - destruct Hfound as (i & r & _ & Hr & _ & _).
    unfold assign_Values. rewrite Hr. simpl.
    eexists. split_and!; [done|done|]. by exists r.
  - destruct (append growcap (arrs st) (Sessions st) [session]) as [h' s'] eqn:Happ.
    destruct (append_spec growcap _ _ _ _ _ Hwf Happ) as (He & Hwf' & _).
    eexists. split_and!; [done|done|done|exact He|exact Hwf'|].
    unfold ids. intros (p & Hp & Hin)%list_elem_of_fmap.
    rewrite Forall_forall in Hfound. by eapply Hfound.
Qed.

Lemma SetSession_unique session st st' :
  unique_ids st → SetSession growcap session st = Some st' → unique_ids st'.
Proof.
  intros [Hv Hnd] Hset.
  destruct (deref st session) as [s|] eqn:Hs;
    [|by unfold SetSession in Hset; rewrite Hs in Hset].
  destruct (SetSession_spec session s st Hv Hs) as (res & st2 & _ & Hset' & Hres).
  rewrite Hset' in Hset. injection Hset as <-.
  destruct Hv as [Hwf Hall]. destruct res as [a|].
  - destruct Hres as (r & Hr & ->).
    assert (∀ p, ID <$> deref (set_objs (<[a:=mkSession (ID r) (Values s)
                     (ActivityDate r)]> (objs st)) st) p = ID <$> deref st p)
      as Hagree.
    { intros [b|]; [|done]. unfold deref. simpl.
      destruct (decide (a = b)) as [<-|Hne].
      - rewrite list_lookup_insert_eq by (by eapply lookup_lt_Some).
        by rewrite Hr.
      - by rewrite list_lookup_insert_ne. }
    split; [split; [done|]|].
    + eapply Forall_impl; [done|]. intros p Hp. simpl in *.
      apply fmap_is_Some with (f := ID). rewrite Hagree.
      by apply fmap_is_Some.
    + erewrite ids_agree; [done|done|]. by apply Forall_true.
  - destruct Hres as (Hobjs & Hheld & Hwf' & Hfresh).
    assert (∀ p, deref st2 p = deref st p) as Hderef.
    { intros p. unfold deref. by rewrite Hobjs. }
    split; [split; [done|]|].
    + rewrite Hheld. apply Forall_app. split.
      * eapply Forall_impl; [done|]. intros p. simpl. by rewrite Hderef.
      * constructor; [|done]. by rewrite Hderef, Hs.
    + unfold ids. rewrite Hheld, fmap_app. simpl.
      erewrite (list_fmap_ext _ (λ p, ID <$> deref st p) (held st))
        by (by intros; simpl; rewrite Hderef).
      rewrite Hderef, Hs. simpl.
      apply NoDup_app. split_and!; [done| |apply NoDup_singleton].
      intros x Hx ->%list_elem_of_singleton. done.
Qed.
End upsert.

Section removal.
Variable growcap : nat → nat → nat.

Lemma cut_at_spec key st hs :
  wf_slice (arrs st) (Sessions st) → cut_at growcap key st = Some hs →
  key < s_len (Sessions st) ∧ elems hs.1 hs.2 = delete key (held st)
  ∧ wf_slice hs.1 hs.2 ∧ s_len hs.2 = s_len (Sessions st) - 1.
Proof.
  intros Hwf. unfold cut_at. intros Hcut.
  destruct (slice_to (arrs st) (Sessions st) key) as [a|] eqn:Ha; [|done].
  destruct (slice_from (Sessions st) (key + 1)) as [b|] eqn:Hb; [|done].
  simpl in Hcut. injection Hcut as Hcut.
  pose proof (slice_from_Some _ _ _ Hb) as [Hle Hbeq].
  assert (key ≤ s_len (Sessions st)) as Hle' by lia.
  pose proof (slice_to_wf _ _ _ _ Ha Hle' Hwf) as Hwfa.
  destruct hs as [h' s'].
  destruct (append_spec growcap _ _ _ _ _ Hwfa Hcut) as (He & Hwf' & Hlen).
  simpl. split_and!; [lia| |done|].
  - rewrite He, (slice_to_elems _ _ _ _ Ha Hle'), (slice_from_elems _ _ _ _ Hb).
    unfold held. by rewrite delete_take_drop, Nat.add_1_r.
  - rewrite Hlen, (slice_from_elems _ _ _ _ Hb), length_drop, length_elems by done.
    apply slice_to_Some in Ha as [_ ->]. simpl. lia.
Qed.

Lemma rotate_spec st hs :
  wf_slice (arrs st) (Sessions st) → rotate growcap st = Some hs →
  ∃ x, held st !! 0 = Some x ∧ 2 ≤ s_len (Sessions st)
       ∧ elems hs.1 hs.2 = drop 2 (held st) ++ [x]
       ∧ wf_slice hs.1 hs.2 ∧ s_len hs.2 = s_len (Sessions st) - 1.
Proof.
  intros Hwf. unfold rotate. intros Hrot.
  destruct (slice_from (Sessions st) 2) as [a|] eqn:Ha; [|done].
  destruct (index (arrs st) (Sessions st) 0) as [x|] eqn:Hx; [|done].
  simpl in Hrot. injection Hrot as Hrot.
  pose proof (slice_from_Some _ _ _ Ha) as [Hle Haeq].
  pose proof (slice_from_wf (arrs st) _ _ _ Ha Hwf) as Hwfa.
  apply index_Some in Hx as [_ Hx].
  destruct hs as [h' s'].
  destruct (append_spec growcap _ _ _ _ _ Hwfa Hrot) as (He & Hwf' & Hlen).
  exists x. simpl. split_and!; [done|done| |done|].
  - by rewrite He, (slice_from_elems _ _ _ _ Ha).
  - rewrite Hlen, Haeq. simpl. lia.
Qed.

(** One removal by [DropSession] leaves a part of what was held. *)
Lemma DropSession_body_shrink key st st' :
  wf_slice (arrs st) (Sessions st) →
  DropSession_body growcap key st = Some st' →
  wf_slice (arrs st') (Sessions st') ∧ objs st' = objs st
  ∧ held st' ⊆+ held st.
Proof.
  intros Hwf. unfold DropSession_body. repeat case_decide; intros Hbody.
  - destruct (cut_at growcap key st) as [hs|] eqn:Hcut; [|done].
    injection Hbody as <-.
    destruct (cut_at_spec _ _ _ Hwf Hcut) as (_ & He & Hwf' & _).
    split_and!; [done|done|]. unfold held at 1. simpl. rewrite He.
    apply submseteq_delete.
  - destruct (rotate growcap st) as [hs|] eqn:Hrot; [|done].
    injection Hbody as <-.
    destruct (rotate_spec _ _ Hwf Hrot) as (x & Hx & _ & He & Hwf' & _).
    split_and!; [done|done|]. unfold held at 1. simpl. rewrite He.
    by apply rotate_submseteq.
  - destruct (slice_from (Sessions st) 1) as [s|] eqn:Hs; [|done].
    injection Hbody as <-.
    split_and!; simpl; [by eapply slice_from_wf|done|].
    unfold held at 1. simpl. rewrite (slice_from_elems _ _ _ _ Hs).
    apply submseteq_drop.
Qed.

Lemma DropSession_loop_unique id r key todo st st' :
  unique_ids st → DropSession_loop growcap id r key todo st = Some st' →
  unique_ids st'.
Proof.
  revert key st. induction todo as [|todo IH]; intros key st Hinv; simpl.
  { by intros [= <-]. }
  destruct (index (arrs st) r key) as [val|]; [|done]. simpl.
  destruct (deref st val) as [s|]; [|done]. simpl.
  case_decide; [|by apply IH].
  destruct (DropSession_body growcap key st) as [st1|] eqn:Hbody; [|done].
  simpl. apply IH.
  destruct (DropSession_body_shrink _ _ _ (proj1 (proj1 Hinv)) Hbody)
    as (? & ? & ?).
  by eapply unique_ids_shrink.
Qed.

(** One removal by [CleanSessions] leaves a part of what was held, except
    in the branch [manager.Sessions = manager.Sessions[:key]], taken when
    [key > 1] with at most one record left. *)
Lemma CleanSessions_body_shrink key st st' :
  wf_slice (arrs st) (Sessions st) →
  ¬ (1 < key ∧ s_len (Sessions st) ≤ 1) →
  CleanSessions_body growcap key st = Some st' →
  wf_slice (arrs st') (Sessions st') ∧ objs st' = objs st
  ∧ held st' ⊆+ held st
  ∧ s_len (Sessions st) ≤ s_len (Sessions st') + 1
  ∧ (1 < key → key ≤ s_len (Sessions st')).
Proof.
  intros Hwf Hbranch. unfold CleanSessions_body.
  repeat case_decide; intros Hbody; try lia.
  - destruct (cut_at growcap key st) as [hs|] eqn:Hcut; [|done].
    injection Hbody as <-.
    destruct (cut_at_spec _ _ _ Hwf Hcut) as (? & He & Hwf' & Hlen).
    split_and!; simpl; [done|done| |lia|lia]. unfold held at 1. simpl.
    rewrite He. apply submseteq_delete.
  - destruct (rotate growcap st) as [hs|] eqn:Hrot; [|done].
    injection Hbody as <-.
    destruct (rotate_spec _ _ Hwf Hrot) as (x & Hx & ? & He & Hwf' & Hlen).
    split_and!; simpl; [done|done| |lia|lia]. unfold held at 1. simpl.
    rewrite He. by apply rotate_submseteq.
  - destruct (index (arrs st) (Sessions st) 0) as [x|] eqn:Hx; [|done].
    simpl in Hbody. injection Hbody as <-.
    apply index_Some in Hx as [Hlt Hx].
    destruct (append growcap (arrs st ++ [[]]) (Slice (length (arrs st)) 0 0) [x])
      as [h' s'] eqn:Happ.
    assert (wf_slice (arrs st ++ [[]]) (Slice (length (arrs st)) 0 0)) as Hwfe.
    { split; simpl; [rewrite length_app; simpl; lia|].
      unfold backing. simpl. rewrite lookup_app_r by done.
      by rewrite Nat.sub_diag. }
    destruct (append_spec growcap _ _ _ _ _ Hwfe Happ) as (He & Hwf' & Hlen).
    split_and!; simpl; [done|done| |simpl in Hlen; lia|lia].
    unfold held at 1. simpl. rewrite He.
    assert (elems (arrs st ++ [[]]) (Slice (length (arrs st)) 0 0) = []) as ->.
    { unfold elems. done. }
    simpl. apply singleton_submseteq_l. by eapply list_elem_of_lookup_2.
  - destruct (slice_from (Sessions st) 1) as [s|] eqn:Hs; [|done].
    injection Hbody as <-.
    pose proof (slice_from_Some _ _ _ Hs) as [? ->].
    split_and!; simpl; [by eapply (slice_from_wf _ _ _ _ Hs)|done| |lia|lia].
    unfold held at 1. simpl. rewrite (slice_from_elems _ _ _ _ Hs).
    apply submseteq_drop.
  - injection Hbody as <-.
    split_and!; simpl; [|done| |lia|lia].
    + split; simpl; [rewrite length_app; simpl; lia|].
      unfold backing. simpl. rewrite lookup_app_r by done.
      by rewrite Nat.sub_diag.
    + unfold held at 1, elems. simpl. apply submseteq_nil_l.
Qed.

(** With a number [n] of records other than three, the loop never reaches
    the branch excluded above: past [key = 1] at least two records are
    left at each removal. *)
Lemma CleanSessions_loop_unique expired r key todo st st' :
  key + todo ≠ 3 →
  (key ≤ 2 → key + todo ≤ s_len (Sessions st) + key) →
  (2 ≤ key → 0 < todo → 2 ≤ s_len (Sessions st)) →
  unique_ids st →
  CleanSessions_loop growcap expired r key todo st = Some st' →
  unique_ids st'.
Proof.
  revert key st. induction todo as [|todo IH]; intros key st Hn Hlow Hhigh Hinv;
    simpl.
  { by intros [= <-]. }
  destruct (index (arrs st) r key) as [val|]; [|done]. simpl.
  destruct (deref st val) as [s|]; [|done]. simpl.
  case_decide.
  - destruct (CleanSessions_body growcap key st) as [st1|] eqn:Hbody; [|done].
    simpl.
    destruct (CleanSessions_body_shrink key st st1 (proj1 (proj1 Hinv)))
      as (? & ? & ? & ? & ?); [lia|done|].
    apply IH; [lia|lia|lia|by eapply unique_ids_shrink].
  - apply IH; [lia|lia|lia|done].
Qed.

(** [append(manager.Sessions[2:], manager.Sessions[0])] writes, if it
    writes in place, just past the collection: the cells up to its end
    stay as they are. *)
Lemma rotate_keeps_cells st hs r i :
  wf_slice (arrs st) (Sessions st) → rotate growcap st = Some hs →
  s_arr r = s_arr (Sessions st) →
  i < s_off (Sessions st) + s_len (Sessions st) →
  backing hs.1 r !! i = backing (arrs st) r !! i.
Proof.
  intros Hwf Hrot Harr Hi. pose proof Hwf as [Ha Hb].
  unfold rotate in Hrot.
  destruct (slice_from (Sessions st) 2) as [a|] eqn:Hsl; [|done].
  destruct (index (arrs st) (Sessions st) 0) as [x|]; [|done].
  simpl in Hrot. injection Hrot as Hrot. destruct hs as [h' s'].
  pose proof (slice_from_wf (arrs st) _ _ _ Hsl Hwf) as Hwfa.
  pose proof (slice_from_Some _ _ _ Hsl) as [Hle ->].
  simpl. rewrite (append_backing growcap _ _ _ _ _ r Hwfa Hrot) by lia.
  case_decide as Hc; [|done].
  assert (backing (arrs st)
            (Slice (s_arr (Sessions st)) (s_off (Sessions st) + 2)
                   (s_len (Sessions st) - 2))
          = backing (arrs st) r) as ->.
  { unfold backing. simpl. by rewrite Harr. }
  by rewrite list_lookup_inserts_lt by (simpl; lia).
Qed.

(** One removal at key 0 or 1 from a collection of two or more. *)
Lemma CleanSessions_body_low key st st1 r :
  wf_slice (arrs st) (Sessions st) → key ≤ 1 → 2 ≤ s_len (Sessions st) →
  s_arr r = s_arr (Sessions st) →
  CleanSessions_body growcap key st = Some st1 →
  s_len (Sessions st1) = s_len (Sessions st) - 1
  ∧ (∀ i, i < s_off (Sessions st) + s_len (Sessions st) →
       backing (arrs st1) r !! i = backing (arrs st) r !! i)
  ∧ (key = 0 → s_arr (Sessions st1) = s_arr (Sessions st)
       ∧ s_off (Sessions st1) + s_len (Sessions st1)
         = s_off (Sessions st) + s_len (Sessions st)).
Proof.
  intros Hwf Hkey Hlen Harr. unfold CleanSessions_body.
  rewrite decide_False by lia.
  destruct (decide (key = 1)) as [->|Hne]; intros Hbody;
    rewrite decide_True in Hbody by lia.
  - destruct (rotate growcap st) as [hs|] eqn:Hrot; [|done].
    injection Hbody as <-.
    destruct (rotate_spec _ _ Hwf Hrot) as (x & _ & _ & _ & _ & Hl).
    split_and!; simpl; [done| |intros ?; lia].
    intros i Hi. by apply rotate_keeps_cells.
  - destruct (slice_from (Sessions st) 1) as [s|] eqn:Hs; [|done].
    injection Hbody as <-.
    apply slice_from_Some in Hs as [_ ->]. simpl.
    split_and!; [lia|done|]. intros _. split; [done|lia].
Qed.

(** An iteration at key 0 or 1 of the sweep of three records. [st0] is the
    store on entry and [st] the store the iteration starts from. *)
Lemma CleanSessions_low_step expired st0 st key todo st' :
  key ≤ 1 → s_len (Sessions st0) = 3 → unique_ids st0 →
  unique_ids st → objs st = objs st0 →
  s_arr (Sessions st) = s_arr (Sessions st0) →
  s_off (Sessions st) + s_len (Sessions st) = s_off (Sessions st0) + 3 →
  2 ≤ s_len (Sessions st) →
  (∀ i, i < s_off (Sessions st0) + 3 →
     backing (arrs st) (Sessions st0) !! i
     = backing (arrs st0) (Sessions st0) !! i) →
  CleanSessions_loop growcap expired (Sessions st0) key (S todo) st = Some st' →
  ∃ p s st1, held st0 !! key = Some p ∧ deref st0 p = Some s
    ∧ CleanSessions_loop growcap expired (Sessions st0) (S key) todo st1
      = Some st'
    ∧ unique_ids st1 ∧ objs st1 = objs st0
    ∧ (∀ i, i < s_off (Sessions st0) + 3 →
         backing (arrs st1) (Sessions st0) !! i
         = backing (arrs st0) (Sessions st0) !! i)
    ∧ (if decide (ActivityDate s < expired)%Z
       then s_len (Sessions st1) = s_len (Sessions st) - 1
            ∧ (key = 0 → s_arr (Sessions st1) = s_arr (Sessions st0)
                 ∧ s_off (Sessions st1) + s_len (Sessions st1)
                   = s_off (Sessions st0) + 3)
       else st1 = st).
Proof.
  intros Hkey Hlen0 Hinv0 Hinv Hobjs Harr Hend Hlen Hcells.
  pose proof Hinv0 as [[Hwf0 Hall0] _].
  cbn [CleanSessions_loop].
  assert (index (arrs st) (Sessions st0) key = held st0 !! key) as ->.
  { unfold held. rewrite <- index_elems by done. unfold index.
    rewrite !decide_True by lia. apply Hcells. lia. }
  destruct (lookup_lt_is_Some_2 (held st0) key) as [p Hp].
  { unfold held. rewrite length_elems by done. lia. }
  destruct (Forall_lookup_1 _ _ _ _ Hall0 Hp) as [s Hs].
  rewrite Hp. simpl.
  assert (deref st p = Some s) as -> by (unfold deref in *; by rewrite Hobjs).
  simpl. intros Hloop. exists p, s.
  destruct (decide (ActivityDate s < expired)%Z) as [Hexp|Hlive].
  - destruct (CleanSessions_body growcap key st) as [st1|] eqn:Hbody; [|done].
    simpl in Hloop. exists st1.
    destruct (CleanSessions_body_shrink key st st1 (proj1 (proj1 Hinv)))
      as (Hwf1 & Hobjs1 & Hsub1 & _ & _); [lia|done|].
    destruct (CleanSessions_body_low key st st1 (Sessions st0)
                (proj1 (proj1 Hinv)) Hkey Hlen (eq_sym Harr) Hbody)
      as (Hlen1 & Hcells1 & Hzero).
    split_and!; [done|done|done|by eapply unique_ids_shrink|congruence| |done|].
    + intros i Hi. rewrite Hcells1 by lia. by apply Hcells.
    + intros Hk. destruct (Hzero Hk) as [? ?]. split; [congruence|lia].
  - simpl in Hloop. exists st. by split_and!.
Qed.

(** The sweep of three records that are not all expired keeps the
    invariant: the branch [manager.Sessions = manager.Sessions[:key]] is
    reached only after the removals at keys 0 and 1, with the record at
    key 2 expired as well. *)
Lemma CleanSessions_three_unique expired st st' :
  unique_ids st → s_len (Sessions st) = 3 →
  (∃ j p s, held st !! j = Some p ∧ deref st p = Some s
            ∧ ¬ (ActivityDate s < expired)%Z) →
  CleanSessions_loop growcap expired (Sessions st) 0 3 st = Some st' →
  unique_ids st'.
Proof.
  intros Hinv Hlen (j & q & sq & Hj & Hq & Hlive) Hloop.
  pose proof Hinv as [[Hwf Hall] _].
  destruct (CleanSessions_low_step expired st st 0 2 st')
    as (p0 & s0 & st1 & Hp0 & Hs0 & Hloop1 & Hinv1 & Hobjs1 & Hcells1 & Hst1);
    [lia|done|done|done|done|done|lia|lia|done|done|].
  assert (s_arr (Sessions st1) = s_arr (Sessions st)
          ∧ s_off (Sessions st1) + s_len (Sessions st1) = s_off (Sessions st) + 3
          ∧ 2 ≤ s_len (Sessions st1)
          ∧ (¬ (ActivityDate s0 < expired)%Z → s_len (Sessions st1) = 3))
    as (Harr1 & Hend1 & Hlen1 & Hkeep1).
  { destruct (decide (ActivityDate s0 < expired)%Z).
    - destruct Hst1 as [Hl [? ?]]; [done|]. split_and!; [done|done|lia|done].
    - subst st1. split_and!; [done|lia|lia|done]. }
  destruct (CleanSessions_low_step expired st st1 1 1 st')
    as (p1 & s1 & st2 & Hp1 & Hs1 & Hloop2 & Hinv2 & Hobjs2 & Hcells2 & Hst2);
    [lia|done|done|done|done|done|done|done|done|done|].
  assert (s_len (Sessions st1) ≤ s_len (Sessions st2) + 1
          ∧ (¬ (ActivityDate s1 < expired)%Z
             → s_len (Sessions st2) = s_len (Sessions st1)))
    as (Hlen2 & Hkeep2).
  { destruct (decide (ActivityDate s1 < expired)%Z).
    - destruct Hst2 as [Hl _]. split; [lia|done].
    - subst st2. split; [lia|done]. }
  cbn [CleanSessions_loop] in Hloop2.
  assert (index (arrs st2) (Sessions st) 2 = held st !! 2) as Hread.
  { unfold held. rewrite <- index_elems by done. unfold index.
    rewrite !decide_True by lia. apply Hcells2. lia. }
  rewrite Hread in Hloop2.
  destruct (lookup_lt_is_Some_2 (held st) 2) as [p2 Hp2].
  { unfold held. rewrite length_elems by done. lia. }
  destruct (Forall_lookup_1 _ _ _ _ Hall Hp2) as [s2 Hs2].
  rewrite Hp2 in Hloop2. simpl in Hloop2.
  assert (deref st2 p2 = Some s2) as Hs2'
    by (unfold deref in *; by rewrite Hobjs2).
  rewrite Hs2' in Hloop2. simpl in Hloop2.
  destruct (decide (ActivityDate s2 < expired)%Z) as [Hexp2|Hlive2].
  - destruct (CleanSessions_body growcap 2 st2) as [st3|] eqn:Hbody; [|done].
    simpl in Hloop2. injection Hloop2 as <-.
    assert (2 ≤ s_len (Sessions st2)) as Hlen3.
    { assert (j < 3) as Hj3.
      { apply lookup_lt_Some in Hj. unfold held in Hj.
        rewrite length_elems in Hj by done. lia. }
      destruct j as [|[|[|j]]]; [| | |lia].
      - rewrite Hp0 in Hj. injection Hj as <-. rewrite Hs0 in Hq.
        injection Hq as <-. specialize (Hkeep1 Hlive). lia.
      - rewrite Hp1 in Hj. injection Hj as <-. rewrite Hs1 in Hq.
        injection Hq as <-. specialize (Hkeep2 Hlive). lia.
      - rewrite Hp2 in Hj. injection Hj as <-. rewrite Hs2 in Hq.
        injection Hq as <-. done. }
    destruct (CleanSessions_body_shrink 2 st2 st3 (proj1 (proj1 Hinv2)))
      as (? & ? & ? & _ & _); [lia|done|].
    by eapply unique_ids_shrink.
  - simpl in Hloop2. by injection Hloop2 as <-.
Qed.
End removal.

(** *** [DropSession] on a store with unique IDs *)

Lemma held_passes st id k j p :
  unique_ids st → ids st !! k = Some (Some id) → j ≠ k →
  held st !! j = Some p → ∃ s, deref st p = Some s ∧ ID s ≠ id.
Proof.
  intros [[_ Hall] Hnd] Hk Hjk Hj.
  destruct (Forall_lookup_1 _ _ _ _ Hall Hj) as [s Hs].
  exists s. split; [done|]. intros <-. apply Hjk.
  eapply NoDup_lookup; [done| |done].
  unfold ids. by rewrite list_lookup_fmap, Hj; simpl; rewrite Hs.
Qed.

Lemma index_held st j :
  wf_slice (arrs st) (Sessions st) →
  index (arrs st) (Sessions st) j = held st !! j.
Proof. apply index_elems. Qed.

Section drop.
Variable growcap : nat → nat → nat.

Lemma DropSession_loop_skip id r todo key st :
  (∀ j, key ≤ j < key + todo → passes id r j st) →
  DropSession_loop growcap id r key todo st = Some st.
Proof.
  revert key. induction todo as [|todo IH]; intros key Hpass; simpl; [done|].
  destruct (Hpass key) as (p & s & -> & Hs & Hne); [lia|]. simpl.
  rewrite Hs. simpl. rewrite decide_False by done. simpl.
  apply IH. intros j Hj. apply Hpass. lia.
Qed.

Lemma DropSession_loop_until id r a key todo st :
  (∀ j, key ≤ j < key + a → passes id r j st) →
  DropSession_loop growcap id r key (a + todo) st
  = DropSession_loop growcap id r (key + a) todo st.
Proof.
  revert key. induction a as [|a IH]; intros key Hpass; simpl.
  { by rewrite Nat.add_0_r. }
  destruct (Hpass key) as (p & s & -> & Hs & Hne); [lia|]. simpl.
  rewrite Hs. simpl. rewrite decide_False by done. simpl.
  rewrite IH by (intros j Hj; apply Hpass; lia). f_equal. lia.
Qed.

(** The removal at the position of the record, and what the iterations
    after it read from the range's backing array: held records other than
    the one removed. *)
Lemma DropSession_body_at st id k :
  unique_ids st → ids st !! k = Some (Some id) →
  ∃ st', DropSession_body growcap k st = Some st'
    ∧ objs st' = objs st ∧ wf_slice (arrs st') (Sessions st')
    ∧ held st' = dropped_at k (held st)
    ∧ ∀ j, k < j < s_len (Sessions st) → passes id (Sessions st) j st'.
Proof.
  intros Hinv Hk. pose proof Hinv as [[Hwf Hall] Hnd].
  pose proof Hwf as [Harr Hbound].
  assert (k < s_len (Sessions st)) as Hlt.
  { apply lookup_lt_Some in Hk. unfold ids, held in Hk.
    by rewrite length_fmap, length_elems in Hk. }
  assert (∀ st' j j', objs st' = objs st → j' ≠ k →
            index (arrs st') (Sessions st) j = held st !! j' →
            j' < s_len (Sessions st) → passes id (Sessions st) j st') as Hpass.
  { intros st' j j' Hobjs Hne Hidx Hj'.
    destruct (lookup_lt_is_Some_2 (held st) j') as [p Hp].
    { unfold held. by rewrite length_elems. }
    destruct (held_passes st id k j' p Hinv Hk Hne Hp) as (s & Hs & Hid).
    exists p, s. split_and!; [by rewrite Hidx| |done].
    unfold deref in *. by rewrite Hobjs. }
  unfold DropSession_body. repeat case_decide.
  - (* key > 1 *)
    unfold cut_at, slice_to, slice_from.
    rewrite !decide_True by (unfold cap; lia). simpl.
    set (a := Slice _ _ k). set (b := Slice _ _ _).
    destruct (append growcap (arrs st) a (elems (arrs st) b)) as [h' s']
      eqn:Happ.
    assert (wf_slice (arrs st) a) as Hwfa.
    { split; simpl; [done|]. unfold backing in *. simpl. lia. }
    assert (elems (arrs st) b = drop (S k) (held st)) as Hb.
    { unfold held, elems, backing, b. simpl.
      rewrite skipn_firstn_comm, drop_drop. do 2 f_equal; lia. }
    assert (length (elems (arrs st) b) = s_len (Sessions st) - S k) as Hlenb.
    { rewrite Hb, length_drop. unfold held. by rewrite length_elems. }
    destruct (append_spec growcap _ _ _ _ _ Hwfa Happ) as (He & Hwf' & _).
    pose proof (append_backing growcap _ _ _ _ _ (Sessions st) Hwfa Happ Harr)
      as Hback.
    rewrite decide_True in Hback by (unfold cap, backing in *; simpl; lia).
    eexists. split; [reflexivity|]. simpl. split_and!; [done|done| |].
    + unfold held at 1. simpl. rewrite He.
      assert (elems (arrs st) a = take k (held st)) as ->.
      { unfold held, elems, backing, a. simpl. rewrite take_take.
        f_equal. lia. }
      rewrite Hb. destruct k as [|[|k]]; [lia|lia|].
      simpl. by rewrite <- delete_take_drop.
    + intros j Hj.
      destruct (decide (j < s_len (Sessions st) - 1)) as [Hin|Hlast].
      * apply (Hpass _ j (S j)); [done|lia| |lia].
        unfold index. rewrite decide_True by lia. simpl. rewrite Hback.
        change (backing (arrs st) a) with (backing (arrs st) (Sessions st)).
        rewrite list_lookup_inserts
          by (rewrite ?Hlenb; unfold backing in *; simpl; lia).
        rewrite Hb, lookup_drop. f_equal. simpl. lia.
      * apply (Hpass _ j j); [done|lia| |lia].
        unfold index. rewrite decide_True by lia. simpl. rewrite Hback.
        change (backing (arrs st) a) with (backing (arrs st) (Sessions st)).
        rewrite list_lookup_inserts_ge by (rewrite Hlenb; simpl; lia).
        rewrite <- index_held by done. unfold index.
        by rewrite decide_True by lia.
  - (* key == 1 *)
    subst k. unfold rotate, slice_from. rewrite decide_True by lia. simpl.
    rewrite index_held by done.
    destruct (lookup_lt_is_Some_2 (held st) 0) as [x Hx].
    { unfold held. rewrite length_elems by done. lia. }
    rewrite Hx. simpl.
    set (a := Slice _ _ _).
    destruct (append growcap (arrs st) a [x]) as [h' s'] eqn:Happ.
    assert (wf_slice (arrs st) a) as Hwfa.
    { split; simpl; [done|]. unfold backing in *. simpl. lia. }
    destruct (append_spec growcap _ _ _ _ _ Hwfa Happ) as (He & Hwf' & _).
    pose proof (append_backing growcap _ _ _ _ _ (Sessions st) Hwfa Happ Harr)
      as Hback.
    eexists. split; [reflexivity|]. simpl. split_and!; [done|done| |].
    + unfold held at 1. simpl. rewrite He. f_equal.
      * unfold held, elems, backing, a. simpl.
        rewrite skipn_firstn_comm, drop_drop. do 2 f_equal.
      * clear -Hx. destruct (held st); simpl in *; by simplify_eq.
    + intros j Hj. apply (Hpass _ j j); [done|lia| |lia].
      rewrite <- index_held by done. unfold index.
      rewrite !decide_True by lia. simpl. rewrite Hback. case_decide; [|done].
      change (backing (arrs st) a) with (backing (arrs st) (Sessions st)).
      rewrite list_lookup_inserts_lt by (simpl; lia). done.
  - (* key == 0 *)
    assert (k = 0) as -> by lia.
    unfold slice_from. rewrite decide_True by lia. simpl.
    eexists. split; [reflexivity|]. simpl. split_and!; [done| | |].
    + split; simpl; [done|]. unfold backing in *. simpl. lia.
    + unfold held, elems, backing. simpl.
      by rewrite skipn_firstn_comm, drop_drop.
    + intros j Hj. apply (Hpass _ j j); [done|lia| |lia].
      simpl. by rewrite index_held.
Qed.

(** On a store with at most one Session per ID, [DropSession] returns. It
    leaves the collection as it was when no record carries the ID, and
    otherwise takes out the one record that does, keeping the order of the
    others unless the record is the second one. *)
Lemma DropSession_spec id st :
  unique_ids st →
  ∃ st', DropSession growcap id st = Some st' ∧ objs st' = objs st
    ∧ wf_slice (arrs st') (Sessions st')
    ∧ held st' = match position id st with
                 | None => held st
                 | Some k => dropped_at k (held st)
                 end.
Proof.
  intros Hinv. pose proof Hinv as [[Hwf Hall] Hnd].
  unfold DropSession, position.
  destruct (list_find _ (ids st)) as [[k o]|] eqn:Hfind; simpl.
  - apply list_find_Some in Hfind as (Hk & -> & Hbefore).
    assert (k < s_len (Sessions st)) as Hlt.
    { apply lookup_lt_Some in Hk. unfold ids, held in Hk.
      by rewrite length_fmap, length_elems in Hk. }
    pose proof (DropSession_loop_until id (Sessions st) k 0
                  (S (s_len (Sessions st) - S k)) st) as Huntil.
    replace (k + S (s_len (Sessions st) - S k)) with (s_len (Sessions st))
      in Huntil by lia.
    rewrite Huntil; clear Huntil; cycle 1.
    { intros j Hj.
      destruct (lookup_lt_is_Some_2 (held st) j) as [p Hp].
      { unfold held. rewrite length_elems by done. lia. }
      destruct (held_passes st id k j p Hinv Hk) as (s & Hs & Hid);
        [lia|done|].
      exists p, s. by rewrite index_held. }
    simpl.
    destruct (lookup_lt_is_Some_2 (held st) k) as [p Hp].
    { unfold held. by rewrite length_elems. }
    rewrite index_held by done. rewrite Hp. simpl.
    destruct (Forall_lookup_1 _ _ _ _ Hall Hp) as [s Hs]. rewrite Hs. simpl.
    assert (ID s = id) as Hid.
    { pose proof Hk as Hk'. unfold ids in Hk'.
      rewrite list_lookup_fmap, Hp in Hk'. simpl in Hk'.
      rewrite Hs in Hk'. simpl in Hk'. by simplify_eq. }
    rewrite decide_True by done.
    destruct (DropSession_body_at st id k Hinv Hk)
      as (st' & -> & Hobjs & Hwf' & Hheld & Hafter).
    simpl. exists st'. split_and!; [|done|done|done].
    apply DropSession_loop_skip. intros j Hj. apply Hafter. lia.
  - apply list_find_None in Hfind.
    exists st. split_and!; [|done|done|done].
    apply DropSession_loop_skip. intros j Hj.
    destruct (lookup_lt_is_Some_2 (held st) j) as [p Hp].
    { unfold held. rewrite length_elems by done. lia. }
    destruct (Forall_lookup_1 _ _ _ _ Hall Hp) as [s Hs].
    exists p, s. split_and!; [by rewrite index_held|done|].
    intros <-. eapply (Forall_lookup_1 _ _ j _ Hfind); [|done].
    unfold ids. by rewrite list_lookup_fmap, Hp; simpl; rewrite Hs.
Qed.
(** The order of the remaining records is kept unless the record dropped
    is the second of three or more. *)
Lemma DropSession_keeps_order_unless_second id st :
  unique_ids st →
  position id st ≠ Some 1 ∨ s_len (Sessions st) ≤ 2 →
  ∃ st', DropSession growcap id st = Some st' ∧ objs st' = objs st
    ∧ held st' = match position id st with
                 | None => held st
                 | Some k => delete k (held st)
                 end.
Proof.
  intros Hinv Hcase.
  destruct (DropSession_spec id st Hinv) as (st' & Hdrop & Hobjs & _ & Hheld).
  exists st'. split_and!; [done|done|]. rewrite Hheld.
  destruct (position id st) as [[|[|k]]|];
    [by destruct (held st)| |done|done].
  destruct Hcase as [|Hlen]; [done|]. simpl.
  assert (length (held st) ≤ 2) as Hl.
  { unfold held. rewrite length_elems; [done|]. apply Hinv. }
  destruct (held st) as [|x [|y [|z l]]]; simpl in *; (done || lia).
Qed.
End drop.

(** *** The store's operations *)

Ltac solve_valid :=
  split; [split; simpl; lia | repeat constructor; eexists; reflexivity].

Lemma valid_store_of l spare timeout : valid (store_of l spare timeout).
Proof.
  split.
  - split; simpl; [lia|]. unfold backing. simpl.
    rewrite length_app, length_fmap, length_seq. lia.
  - unfold held, elems, backing, store_of. cbn [arrs Sessions s_arr s_off s_len].
    cbn [lookup list_lookup default from_option]. unfold id.
    rewrite drop_0, take_app_length' by (by rewrite length_fmap, length_seq).
    apply Forall_fmap, Forall_forall. intros a Ha%elem_of_seq.
    unfold deref. simpl. apply lookup_lt_is_Some. lia.
Qed.

(** C8: on every store state and for every id, [GetSession id], when it
    returns, returns the first held record whose ID is [id], or nil when no
    held record has that ID, and the store it leaves is the store it found:
    the collection, every session's values and every session's activity
    stamp, the returned session's included. It does return on every store
    whose held pointers all refer to sessions (on a nil entry [val.ID]
    panics). *)
Theorem GetSession_finds_and_leaves_store id st :
  (valid st → is_Some (GetSession id st)) ∧
  ∀ res st', GetSession id st = Some (res, st') →
    st' = st ∧
    match res with
    | None => Some id ∉ ids st
    | Some a =>
        ∃ i s, held st !! i = Some (Some a) ∧ deref st (Some a) = Some s
          ∧ ID s = id ∧ Some id ∉ take i (ids st)
    end.
Proof.
  unfold GetSession. split.
  - intros [_ Hall].
    destruct (GetSession_range_total st id (held st) Hall) as [res ->].
    by eexists.
  - intros res st' Hget.
    destruct (GetSession_range st id (held st)) as [res'|] eqn:Hres; [|done].
    simpl in Hget. injection Hget as <- <-. split; [done|].
    apply GetSession_range_sound in Hres. destruct res' as [a|].
    + destruct Hres as (i & s & Hi & Hs & Hid & Hbefore).
      exists i, s. split_and!; [done|done|done|].
      unfold ids. rewrite <- fmap_take.
      intros (p & Hp & Hin)%list_elem_of_fmap.
      rewrite Forall_forall in Hbefore. by eapply Hbefore.
    + unfold ids. intros (p & Hp & Hin)%list_elem_of_fmap.
      rewrite Forall_forall in Hres. by eapply Hres.
Qed.

Lemma GetSession_finds_and_leaves_store_witness :
  valid (store_of [sA; sB] 0 10) ∧
  GetSession "b" (store_of [sA; sB] 0 10)
  = Some (Some 1, store_of [sA; sB] 0 10) ∧
  is_Some (GetSession "b" (store_of [sA; sB] 0 10)) ∧
  ∃ i s, held (store_of [sA; sB] 0 10) !! i = Some (Some 1)
    ∧ deref (store_of [sA; sB] 0 10) (Some 1) = Some s
    ∧ ID s = "b" ∧ Some "b" ∉ take i (ids (store_of [sA; sB] 0 10)).
Proof.
  assert (valid (store_of [sA; sB] 0 10)) as Hv by apply valid_store_of.
  assert (GetSession "b" (store_of [sA; sB] 0 10)
          = Some (Some 1, store_of [sA; sB] 0 10)) as Hget by reflexivity.
  split; [exact Hv|]. split; [exact Hget|]. split.
  - exact (proj1 (GetSession_finds_and_leaves_store "b" (store_of [sA; sB] 0 10))
             Hv).
  - exact (proj2 (proj2 (GetSession_finds_and_leaves_store "b"
                           (store_of [sA; sB] 0 10)) _ _ Hget)).
Defined.

(** C4, as stated, fails: a record "a" with activity stamp 10 is stored;
    [SetSession] is handed a session "a" stamped 50 and called at instant
    100. The stored record takes the incoming values and keeps its stamp
    10, which is neither the instant of the call nor the incoming stamp:
    [SetSession] never reads the clock and never assigns [ActivityDate]. *)
Lemma SetSession_keeps_ActivityDate :
  let now := 100%Z in
  GetSession "a" upsert_store = Some (Some 0, upsert_store) ∧
  ∃ st', SetSession doubling (Some 1) upsert_store = Some st'
    ∧ deref st' (Some 0) = Some (mkSession "a" [("k", "new")] 10)
    ∧ ActivityDate <$> deref st' (Some 0) ≠ Some now
    ∧ ActivityDate <$> deref st' (Some 0) ≠ Some (ActivityDate incoming_a).
Proof. simpl. split; [done|]. eexists. split_and!; [reflexivity|done|done|done]. Qed.

(** C4, amended: [SetSession(session)] is an upsert. When [GetSession]
    finds a record with the incoming ID, that record's values are replaced
    (not merged) by a copy of the incoming values, its ID and its activity
    stamp stay as they were, and nothing else in the store changes; when no
    record has that ID, the incoming session is appended to the
    collection. *)
Theorem SetSession_upsert growcap session s st :
  valid st → deref st session = Some s →
  ∃ res st', GetSession (ID s) st = Some (res, st)
    ∧ SetSession growcap session st = Some st'
    ∧ match res with
      | Some a =>
          ∃ r, objs st !! a = Some r
            ∧ objs st' = <[a := mkSession (ID r) (Values s) (ActivityDate r)]>
                           (objs st)
            ∧ arrs st' = arrs st ∧ Sessions st' = Sessions st
            ∧ SessionTimeout st' = SessionTimeout st
      | None =>
          objs st' = objs st ∧ held st' = held st ++ [session]
          ∧ Some (ID s) ∉ ids st
      end.
Proof.
  intros Hv Hs.
  destruct (SetSession_spec growcap session s st Hv Hs)
    as (res & st' & Hget & Hset & Hres).
  exists res, st'. split_and!; [done|done|]. destruct res as [a|].
  - destruct Hres as (r & Hr & ->). exists r. by split_and!.
  - destruct Hres as (? & ? & _ & ?). by split_and!.
Qed.

Lemma SetSession_upsert_witness :
  valid upsert_store ∧ deref upsert_store (Some 1) = Some incoming_a ∧
  ∃ res st', GetSession (ID incoming_a) upsert_store = Some (res, upsert_store)
    ∧ SetSession doubling (Some 1) upsert_store = Some st'
    ∧ match res with
      | Some a =>
          ∃ r, objs upsert_store !! a = Some r
            ∧ objs st' = <[a := mkSession (ID r) (Values incoming_a)
                                   (ActivityDate r)]> (objs upsert_store)
            ∧ arrs st' = arrs upsert_store ∧ Sessions st' = Sessions upsert_store
            ∧ SessionTimeout st' = SessionTimeout upsert_store
      | None =>
          objs st' = objs upsert_store
          ∧ held st' = held upsert_store ++ [Some 1]
          ∧ Some (ID incoming_a) ∉ ids upsert_store
      end.
Proof.
  assert (valid upsert_store) as Hv by solve_valid.
  split; [exact Hv|]. split; [reflexivity|].
  apply (SetSession_upsert doubling (Some 1) incoming_a upsert_store Hv).
  reflexivity.
Defined.

Ltac solve_NoDup := refine (bool_decide_unpack _ _); vm_compute; exact I.

Lemma unique_ids_grow st st' x :
  valid st' → ids st' = ids st ++ [x] → NoDup (ids st) →
  unique_ids st' ↔ x ∉ ids st.
Proof.
  intros Hv Hids Hnd. unfold unique_ids. rewrite Hids, NoDup_app. split.
  - intros (_ & _ & Hx & _) Hin. apply (Hx x Hin). left.
  - intros Hx. split_and!; [done|done| |apply NoDup_singleton].
    by intros y Hy ->%list_elem_of_singleton.
Qed.

(** C3, as stated, fails: a store holds one record "a" and satisfies the
    invariant; [CreateSession("a")] neither rejects nor replaces: it
    returns a new record and the collection holds two records with the ID
    "a". *)
Lemma CreateSession_duplicates_id :
  unique_ids (store_of [sA] 0 10) ∧
  ∃ r st', CreateSession doubling 100 "a" (store_of [sA] 0 10) = Some (r, st')
    ∧ ids st' = [Some "a"; Some "a"] ∧ ¬ unique_ids st'.
Proof.
  split.
  { split; [apply valid_store_of|solve_NoDup]. }
  eexists _, _. split_and!; [reflexivity|reflexivity|].
  intros [_ Hnd]. apply NoDup_cons in Hnd as [Hin _]. apply Hin. left.
Qed.

(** Among records that are not all expired there is a live one. *)
Lemma not_all_expired now st (l : list ptr) :
  Forall (λ p, is_Some (deref st p)) l → ¬ Forall (is_expired now st) l →
  ∃ j p s, l !! j = Some p ∧ deref st p = Some s
           ∧ ¬ (ActivityDate s < now - SessionTimeout st)%Z.
Proof.
  induction 1 as [|p l [s Hs] _ IH]; intros Hnot.
  { destruct Hnot. constructor. }
  destruct (decide (ActivityDate s < now - SessionTimeout st)%Z) as [Hexp|Hlive].
  - destruct IH as (j & q & r & Hj & Hq & Hr).
    { intros Hall. apply Hnot. constructor; [by exists s|done]. }
    by exists (S j), q, r.
  - by exists 0, p, s.
Qed.

(** C3, amended: from every store that holds at most one Session per ID,
    [DropSession] returns and leads to such a store, [SetSession] leads
    to such a store whenever it returns (it panics on a nil session), and
    so does [CleanSessions] unless the collection holds exactly three
    records and all three are expired; [CreateSession] always appends a new
    record, so it keeps the invariant exactly when no held record carries
    the ID it is given (what [Contains] tells the caller), and breaks it
    otherwise. *)
Theorem mutations_keep_unique_ids growcap now id new_id session st :
  unique_ids st →
  (∀ st', SetSession growcap session st = Some st' → unique_ids st') ∧
  (∃ st', DropSession growcap id st = Some st' ∧ unique_ids st') ∧
  (∀ st', ¬ (s_len (Sessions st) = 3 ∧ Forall (is_expired now st) (held st)) →
          CleanSessions growcap now st = Some st' → unique_ids st') ∧
  (∃ b, Contains new_id st = Some (b, st) ∧ (b = true ↔ Some new_id ∈ ids st)) ∧
  (∃ r st', CreateSession growcap now new_id st = Some (r, st')
     ∧ (unique_ids st' ↔ Some new_id ∉ ids st)).
Proof.
  intros Hinv. split_and!.
  - intros st'. by apply SetSession_unique.
  - destruct (DropSession_spec growcap id st Hinv) as (st' & Hdrop & _).
    exists st'. split; [done|]. by eapply DropSession_loop_unique.
  - intros st' Hnot Hclean.
    destruct (decide (s_len (Sessions st) = 3)) as [Hthree|Hn].
    + unfold CleanSessions in Hclean. rewrite Hthree in Hclean.
      apply (CleanSessions_three_unique growcap (now - SessionTimeout st)%Z
               st st' Hinv Hthree); [|exact Hclean].
      apply not_all_expired; [apply Hinv|]. intros Hall. by apply Hnot.
    + apply (CleanSessions_loop_unique growcap (now - SessionTimeout st)%Z
               (Sessions st) 0 (s_len (Sessions st)) st st');
        [exact Hn|lia|lia|exact Hinv|exact Hclean].
  - destruct Hinv as [[_ Hall] _].
    destruct (Contains_range_spec st new_id (held st) Hall) as (b & Hb & Hiff).
    exists b. unfold Contains. rewrite Hb. done.
  - destruct Hinv as [Hv Hnd].
    destruct (CreateSession_spec growcap now new_id st Hv) as (st' & Hcreate & _).
    exists (Some (length (objs st))), st'. split; [done|].
    destruct (CreateSession_ids growcap now new_id st _ st' Hv Hcreate) as [Hv' Hids].
    by apply unique_ids_grow.
Qed.

Lemma mutations_keep_unique_ids_witness :
  let st := store_of [fX; sA; fY] 0 10 in
  unique_ids st ∧
  (∀ st', SetSession doubling (Some 1) st = Some st' → unique_ids st') ∧
  (∃ st', DropSession doubling "a" st = Some st' ∧ unique_ids st') ∧
  (¬ (s_len (Sessions st) = 3 ∧ Forall (is_expired 100 st) (held st))
   ∧ ∃ st', CleanSessions doubling 100 st = Some st' ∧ unique_ids st') ∧
  (∃ b, Contains "c" st = Some (b, st) ∧ (b = true ↔ Some "c" ∈ ids st)) ∧
  (∃ r st', CreateSession doubling 100 "c" st = Some (r, st')
     ∧ (unique_ids st' ↔ Some "c" ∉ ids st)).
Proof.
  intros st.
  assert (unique_ids st) as Hinv.
  { split; [apply valid_store_of|solve_NoDup]. }
  assert (¬ (s_len (Sessions st) = 3 ∧ Forall (is_expired 100 st) (held st)))
    as Hnot.
  { intros [_ Hall].
    assert (held st = [Some 0; Some 1; Some 2]) as Hheld by reflexivity.
    rewrite Hheld in Hall. apply Forall_cons in Hall as [(s & Hs & Hold) _].
    injection Hs as <-. simpl in Hold. lia. }
  destruct (mutations_keep_unique_ids doubling 100 "a" "c" (Some 1) st Hinv)
    as (Hset & Hdrop & Hclean & Hcontains & Hcreate).
  split_and!; [exact Hinv|exact Hset|exact Hdrop|exact Hnot|
               |exact Hcontains|exact Hcreate].
  eexists. split; [reflexivity|]. apply Hclean; [exact Hnot|reflexivity].
Defined.

(** C1, at a failing input: two sessions "a" and "b", both last active at
    instant 0, are swept at instant 100 under a timeout of 10. Both are
    expired; the sweep returns with "b" still in the collection. Removing
    "a" at key 0 leaves one record, and at key 1 the branch for a
    collection of one rebuilds it from [manager.Sessions[0]], which by then
    is "b" itself. *)
Theorem CleanSessions_keeps_an_expired_session :
  ∀ growcap,
    (ActivityDate sA < 100 - 10)%Z ∧ (ActivityDate sB < 100 - 10)%Z ∧
    sweep_expired_spec 100 10 [sA; sB] = [] ∧
    records <$> CleanSessions growcap 100 (store_of [sA; sB] 0 10)
    = Some (Some [sB]).
Proof. intros growcap. split_and!; [done|done|reflexivity|reflexivity]. Qed.

(** Further runs of the sweep at instant 100 under a timeout of 10. With an
    expired record between two live ones, the survivors come out in the
    other order. *)
Example CleanSessions_reorders growcap :
  records <$> CleanSessions growcap 100 (store_of [fX; sA; fY] 0 10)
  = Some (Some [fY; fX]).
Proof. reflexivity. Qed.

(** With the expired records at keys 0 and 2 of four, the second removal is
    made at key 2 of a collection already shifted by one: the live record
    "y" goes and the expired "b" stays. *)
Example CleanSessions_removes_a_live_session growcap :
  records <$> CleanSessions growcap 100 (store_of [sA; fX; sB; fY] 0 10)
  = Some (Some [fX; sB]).
Proof. reflexivity. Qed.

(** With the last two of four expired, the second removal slices past the
    end of the shortened collection and the sweep panics. *)
Example CleanSessions_panics growcap :
  CleanSessions growcap 100 (store_of [fX; fY; sA; sB] 0 10) = None.
Proof. reflexivity. Qed.

(** With three records, all expired, and spare capacity in the backing
    array, [manager.Sessions[:2]] reaches past the one record left and
    takes in the cell after it: the collection ends up holding a nil
    pointer. *)
Example CleanSessions_exposes_spare_capacity growcap :
  held <$> CleanSessions growcap 100 (store_of [sA; sB; sC] 2 10)
  = Some [Some 1; nil].
Proof. reflexivity. Qed.

(** The same branch on the store reached by [history], whose three records
    "p1", "x" and "f" have distinct IDs: swept once all three are expired,
    the collection ends up holding the record "x" twice. *)
Example CleanSessions_duplicates_a_record :
  ∃ st, history = Some st ∧ unique_ids st
    ∧ ids st = [Some "p1"; Some "x"; Some "f"]
    ∧ ids <$> CleanSessions doubling 1000000000000 st
      = Some [Some "x"; Some "x"].
Proof.
  eexists. split; [reflexivity|].
  split_and!; [|vm_compute; reflexivity|vm_compute; reflexivity].
  split; [solve_valid|solve_NoDup].
Qed.

(** C2, at a failing input: of three sessions "a", "b", "c", the second is
    dropped. It is removed, but the two that remain come out as "c", "a":
    the branch for key 1 appends [manager.Sessions[0]] after
    [manager.Sessions[2:]], where the branch for a key above 1 cuts the
    record out in place. *)
Theorem DropSession_second_reorders :
  ∀ growcap,
    records (store_of [sA; sB; sC] 0 10) = Some [sA; sB; sC] ∧
    drop_spec "b" [sA; sB; sC] = [sA; sC] ∧
    records <$> DropSession growcap "b" (store_of [sA; sB; sC] 0 10)
    = Some (Some [sC; sA]).
Proof. intros growcap. split_and!; reflexivity. Qed.

(** Dropping the third of four keeps the order of the rest. *)
Example DropSession_third_keeps_order growcap :
  records <$> DropSession growcap "c" (store_of [sA; sB; sC; fX] 0 10)
  = Some (Some [sA; sB; fX]).
Proof. reflexivity. Qed.

(** C5, at a failing input: on two expired sessions "a" and "b" the first
    sweep at instant 100 leaves "b"; a second sweep at the same instant
    removes it. Two sweeps in a row do not leave what one leaves. *)
Theorem CleanSessions_twice_differs :
  ∀ growcap,
    sweep_expired_spec 100 10 (sweep_expired_spec 100 10 [sA; sB])
    = sweep_expired_spec 100 10 [sA; sB] ∧
    records <$> CleanSessions growcap 100 (store_of [sA; sB] 0 10)
    = Some (Some [sB]) ∧
    records <$> (CleanSessions growcap 100 (store_of [sA; sB] 0 10)
                 ≫= CleanSessions growcap 100)
    = Some (Some []).
Proof. intros growcap. split_and!; reflexivity. Qed.

End SessionFacts.

(** ** Facts about action results *)

Module ActionResultFacts.
Import ActionResultV01.

Lemma length_le_0_nil {A} (l : list A) : length l ≤ 0 ↔ l = [].
Proof. destruct l; simpl; split; (done || lia). Qed.

(** C10: for every ActionResult, whatever order the headers are visited in,
    the v0.1 [Execute] returns an error if and only if [Data] is empty; in
    that case none of its calls writes a status code or a body, and
    otherwise its last two calls write the status code and the body; in
    either case it sets every header of the result and every cookie of the
    result on the response. *)
Theorem Execute_errors_iff_no_data visit result :
  visit ≡ₚ map_to_list (Headers result) →
  ∃ calls err, Execute visit result = (calls, err)
    ∧ (is_Some err ↔ Data result = [])
    ∧ (Data result = [] → Forall (λ c, ¬ writes_response c) calls)
    ∧ (Data result ≠ [] →
       ∃ pre, calls = pre ++ [WriteHeader (StatusCode result); Write (Data result)]
              ∧ Forall (λ c, ¬ writes_response c) pre)
    ∧ (∀ k v, Headers result !! k = Some v → HeaderSet k v ∈ calls)
    ∧ (∀ cookie, cookie ∈ Cookies result → SetCookie cookie ∈ calls).
Proof.
  intros Hvisit.
  set (headers := (λ kv : string * string, HeaderSet kv.1 kv.2) <$> visit).
  set (cookies := SetCookie <$> Cookies result).
  assert (Forall (λ c, ¬ writes_response c) (headers ++ cookies)) as Hpre.
  { apply Forall_app. split; apply Forall_fmap, Forall_true; intros ? []. }
  assert (∀ k v, Headers result !! k = Some v → HeaderSet k v ∈ headers) as Hh.
  { intros k v Hkv. apply (list_elem_of_fmap_2' _ _ (k, v)); [|done].
    rewrite Hvisit. by apply elem_of_map_to_list. }
  assert (∀ c, c ∈ Cookies result → SetCookie c ∈ cookies) as Hc.
  { intros c Hin. by apply list_elem_of_fmap_2. }
  unfold Execute. fold headers cookies. case_decide as Hlen.
  - apply length_le_0_nil in Hlen. eexists _, _. split; [done|].
    split_and!; [done|done|done| |].
    + intros k v Hkv. apply elem_of_app. left. by apply Hh.
    + intros c Hin. apply elem_of_app. right. by apply Hc.
  - rewrite length_le_0_nil in Hlen. eexists _, _. split; [done|].
    split_and!.
    + split; [by intros [? [=]]|done].
    + done.
    + intros _. exists (headers ++ cookies). by rewrite <- app_assoc.
    + intros k v Hkv. apply elem_of_app. left. by apply Hh.
    + intros c Hin. rewrite !elem_of_app. right. left. by apply Hc.
Qed.

Lemma Execute_errors_iff_no_data_witness :
  let result :=
    {| StatusCode := 200; Headers := {[ "TestHeader" := "TestValue" ]};
       Cookies := [mkCookie "TestCookie" "TestValue"]; Data := [] |} in
  let visit := [("TestHeader", "TestValue")] in
  visit ≡ₚ map_to_list (Headers result) ∧
  ∃ calls err, Execute visit result = (calls, err)
    ∧ (is_Some err ↔ Data result = [])
    ∧ (Data result = [] → Forall (λ c, ¬ writes_response c) calls)
    ∧ (Data result ≠ [] →
       ∃ pre, calls = pre ++ [WriteHeader (StatusCode result); Write (Data result)]
              ∧ Forall (λ c, ¬ writes_response c) pre)
    ∧ (∀ k v, Headers result !! k = Some v → HeaderSet k v ∈ calls)
    ∧ (∀ cookie, cookie ∈ Cookies result → SetCookie cookie ∈ calls).
Proof.
  intros result visit.
  assert (visit ≡ₚ map_to_list (Headers result)) as Hvisit.
  { unfold visit, result. simpl. by rewrite map_to_list_singleton. }
  split; [exact Hvisit|].
  exact (Execute_errors_iff_no_data visit result Hvisit).
Defined.

End ActionResultFacts.

(** ** Facts about request dispatch *)

Module RouteFacts.
Import GoSlice SessionManager ActionResultV01 RouteManager.

Section dispatch.
Variable growcap : nat → nat → nat.
Variable refusal_path : string → ActionResult.
Variable files : list string → option (list Byte.byte).
Variables (now : Z) (fresh_id : string).

(** C6: for every request whose first path segment case-matches a reserved
    name, whatever the route table holds and whatever files exist,
    [handle_request] answers with the output of the Error hook path for
    "refused: reserved path", not with a file and not through a controller,
    and leaves the session store alone; [serve_file] serves nothing for
    such a path either. *)
Theorem reserved_path_refused m req st seg :
  head (segments (target req)) = Some seg → reserved seg = true →
  handle_request growcap refusal_path files now fresh_id m req st
  = Some (ByErrorPath (refusal_path "refused: reserved path"), st)
  ∧ serve_file files (segments (target req)) = None.
Proof.
  intros Hhead Hres. unfold handle_request, serve_file. rewrite Hhead. simpl.
  rewrite Hres. split; [done|].
  destruct (segments (target req)) as [|seg' segs]; [done|].
  injection Hhead as ->. case_decide; [done|]. simpl. by rewrite Hres.
Qed.




(** C9: [set_controller_sessions] returns an error when the controller is
    absent and when the controller's request is absent, and leaves the
    session store as it was; [handle_request], on a controller whose
    request is absent, hands that error back and answers with no Action
    Result. *)
Theorem set_controller_sessions_errors key :
  (∀ st, ∃ err,
     set_controller_sessions growcap now fresh_id key None st
     = Some (inl err, st))
  ∧ (∀ c st, request c = None →
       ∃ err, set_controller_sessions growcap now fresh_id key (Some c) st
              = Some (inl err, st))
  ∧ (∀ m req st factory rest,
       default false (reserved <$> head (segments (target req))) = false →
       resolve m (segments (target req)) = Some (factory, rest) →
       request (factory req) = None →
       ∃ err, handle_request growcap refusal_path files now fresh_id m req st
              = Some (Failed err, st)).
Proof.
  split_and!.
  - intros st. by eexists.
  - intros c st Hreq. unfold set_controller_sessions. rewrite Hreq. by eexists.
  - intros m req st factory rest Hres Hresolve Hreq.
    unfold handle_request. rewrite Hres, Hresolve. simpl. rewrite Hreq.
    by eexists.
Qed.
End dispatch.

Lemma reserved_path_refused_witness :
  let m := register_controller "views" newRMTestController test_manager in
  let req := mkRequest "" "/views/index.htm" [] in
  head (segments (target req)) = Some "views" ∧ reserved "views" = true ∧
  views_file_tree (segments (target req)) = Some (bytes "Oh nos?") ∧
  handle_request doubling test_refusal views_file_tree 0 "FRESH" m req
    NewSessionManager
  = Some (ByErrorPath (test_refusal "refused: reserved path"), NewSessionManager)
  ∧ serve_file views_file_tree (segments (target req)) = None.
Proof.
  intros m req. split; [reflexivity|]. split; [reflexivity|].
  split; [reflexivity|].
  apply (reserved_path_refused doubling test_refusal views_file_tree 0 "FRESH"
           m req NewSessionManager "views"); reflexivity.
Defined.


(** The two requests of scenario 1, as [TestRouteManager_HandleRequest]
    makes them: /test/index with parameters, query and fragment is answered
    by the Index action of the controller "test", and the request with no
    path that follows, carrying the cookie the first answer set, by the same
    action through the default controller. *)
Example known_route_then_default :
  fst <$> handle_request doubling test_refusal (λ _, None) 0 "FRESH" test_manager
            (mkRequest "GET"
               "/test/index/param1/param2?qs=value&ext=more#MyFragment" [])
            NewSessionManager
  = Some (ByController (NewActionResult (bytes "Test Data"))
            (Some (mkCookie "SessionID" "FRESH")))
  ∧ fst <$> (handle_request doubling test_refusal (λ _, None) 0 "FRESH"
               test_manager
               (mkRequest "GET"
                  "/test/index/param1/param2?qs=value&ext=more#MyFragment" [])
               NewSessionManager
             ≫= λ first,
               handle_request doubling test_refusal (λ _, None) 5 "OTHER"
                 test_manager (mkRequest "GET" "" [("SessionID", "FRESH")])
                 first.2)
    = Some (ByController (NewActionResult (bytes "Test Data")) None).
Proof. split; reflexivity. Qed.

(** Under the fallback segment 0 is the action name: with no controller
    named "Index", /Index/param1 is answered by the Index action of the
    default controller, with "param1" as its parameter. *)
Example default_fallback_first_segment_is_action :
  resolve test_manager (segments "/Index/param1")
  = Some (newRMTestController, ["Index"; "param1"])
  ∧ fst <$> handle_request doubling test_refusal (λ _, None) 0 "FRESH"
              test_manager (mkRequest "GET" "/Index/param1" [])
              NewSessionManager
    = Some (ByController (NewActionResult (bytes "Test Data"))
              (Some (mkCookie "SessionID" "FRESH"))).
Proof. split; reflexivity. Qed.

Lemma set_controller_sessions_errors_witness :
  let m := register_controller "bare" (λ _, empty_controller) test_manager in
  let req := mkRequest "GET" "/bare" [] in
  request empty_controller = None ∧
  (∃ err, set_controller_sessions doubling 0 "FRESH" "SessionID"
            (Some empty_controller) NewSessionManager
          = Some (inl err, NewSessionManager)) ∧
  (∃ err, handle_request doubling test_refusal (λ _, None) 0 "FRESH" m req
            NewSessionManager
          = Some (Failed err, NewSessionManager)).
Proof.
  intros m req.
  destruct (set_controller_sessions_errors doubling test_refusal (λ _, None)
              0 "FRESH" "SessionID") as (_ & Hrequest & Hhandled).
  split_and!; [reflexivity| |].
  - apply Hrequest. reflexivity.
  - apply (Hhandled m req NewSessionManager (λ _, empty_controller) []);
      reflexivity.
Defined.

End RouteFacts.

(** ** More on the session store: lookups, round trips and frames *)

Module SessionMore.
Import GoSlice SessionManager SliceFacts SessionFacts.

Lemma Contains_range_GetSession st id vals :
  Contains_range st id vals
  = (λ r : ptr, bool_decide (r ≠ nil)) <$> GetSession_range st id vals.
Proof.
  induction vals as [|p vals IH]; simpl; [done|].
  destruct (deref st p) as [s|] eqn:Hs; simpl; [|done].
  case_decide; [|done]. simpl. by destruct p.
Qed.

Lemma GetSession_range_ext st st' id vals :
  Forall (λ p, ID <$> deref st' p = ID <$> deref st p) vals →
  GetSession_range st' id vals = GetSession_range st id vals.
Proof.
  induction 1 as [|p vals Hp _ IH]; simpl; [done|].
  destruct (deref st' p) as [s'|], (deref st p) as [s|]; simplify_eq/=; [|done].
  rewrite Hp, IH. done.
Qed.

Lemma GetSession_range_app st id l1 l2 :
  GetSession_range st id (l1 ++ l2)
  = r ← GetSession_range st id l1;
    match r with Some _ => Some r | None => GetSession_range st id l2 end.
Proof.
  induction l1 as [|p l1 IH]; simpl; [done|].
  destruct (deref st p) as [s|] eqn:Hs; simpl; [|done].
  case_decide; [|done]. simpl. by destruct p.
Qed.

Lemma valid_shrink st st' :
  valid st → wf_slice (arrs st') (Sessions st') →
  objs st' = objs st → held st' ⊆+ held st → valid st'.
Proof.
  intros [_ Hall] Hwf' Hobjs Hsub. split; [done|].
  eapply submseteq_Forall; [done|].
  eapply Forall_impl; [done|]. intros p. unfold deref. by rewrite Hobjs.
Qed.

Lemma dropped_at_perm k (l : list ptr) : dropped_at k l ≡ₚ delete k l.
Proof.
  destruct k as [|[|k]]; simpl; [by destruct l| |done].
  destruct l as [|x [|y l]]; simpl; [done|done|].
  by rewrite <- Permutation_cons_append.
Qed.

Lemma filter_all {A} (P : A → Prop) `{∀ x, Decision (P x)} (l : list A) :
  Forall P l → filter P l = l.
Proof.
  induction 1 as [|x l Hx _ IH]; [done|].
  rewrite filter_cons_True by done. by rewrite IH.
Qed.

Lemma filter_delete_unique {A B} `{EqDecision B} (f : A → B) (l : list A) k y :
  (f <$> l) !! k = Some y → NoDup (f <$> l) →
  filter (λ x, f x ≠ y) l = delete k l.
Proof.
  revert k. induction l as [|x l IH]; intros k Hk Hnd; [done|].
  rewrite fmap_cons in Hnd. apply NoDup_cons in Hnd as [Hx Hnd].
  destruct k as [|k]; simpl in Hk.
  - injection Hk as <-. rewrite filter_cons_False by (by intros ?). simpl.
    apply filter_all, Forall_forall. intros z Hz Heq.
    apply Hx. rewrite <- Heq. by apply list_elem_of_fmap_2.
  - rewrite filter_cons_True.
    + simpl. f_equal. by apply IH.
    + intros Heq. apply Hx. rewrite Heq. by eapply list_elem_of_lookup_2.
Qed.

Lemma filter_absent {A B} `{EqDecision B} (f : A → B) (l : list A) y :
  y ∉ f <$> l → filter (λ x, f x ≠ y) l = l.
Proof.
  intros Hy. apply filter_all, Forall_forall. intros z Hz Heq.
  apply Hy. rewrite <- Heq. by apply list_elem_of_fmap_2.
Qed.

Section more.
Variable growcap : nat → nat → nat.

Lemma DropSession_loop_shrink id r key todo st st' :
  wf_slice (arrs st) (Sessions st) →
  DropSession_loop growcap id r key todo st = Some st' →
  wf_slice (arrs st') (Sessions st') ∧ objs st' = objs st
  ∧ held st' ⊆+ held st.
Proof.
  revert key st. induction todo as [|todo IH]; intros key st Hwf; simpl.
  { by intros [= <-]. }
  destruct (index (arrs st) r key) as [val|]; [|done]. simpl.
  destruct (deref st val) as [s|]; [|done]. simpl.
  case_decide; [|by apply IH].
  destruct (DropSession_body growcap key st) as [st1|] eqn:Hbody; [|done].
  simpl. intros Hloop.
  destruct (DropSession_body_shrink _ _ _ _ Hwf Hbody) as (Hwf1 & Hobjs1 & Hsub1).
  destruct (IH _ _ Hwf1 Hloop) as (? & Hobjs & Hsub).
  split_and!; [done|congruence|by etrans].
Qed.

Lemma CleanSessions_loop_shrink expired r key todo st st' :
  key + todo ≠ 3 →
  (key ≤ 2 → key + todo ≤ s_len (Sessions st) + key) →
  (2 ≤ key → 0 < todo → 2 ≤ s_len (Sessions st)) →
  wf_slice (arrs st) (Sessions st) →
  CleanSessions_loop growcap expired r key todo st = Some st' →
  wf_slice (arrs st') (Sessions st') ∧ objs st' = objs st
  ∧ held st' ⊆+ held st.
Proof.
  revert key st. induction todo as [|todo IH]; intros key st Hn Hlow Hhigh Hwf;
    simpl.
  { by intros [= <-]. }
  destruct (index (arrs st) r key) as [val|]; [|done]. simpl.
  destruct (deref st val) as [s|]; [|done]. simpl.
  case_decide.
  - destruct (CleanSessions_body growcap key st) as [st1|] eqn:Hbody; [|done].
    simpl. intros Hloop.
    destruct (CleanSessions_body_shrink growcap key st st1 Hwf)
      as (Hwf1 & Hobjs1 & Hsub1 & ? & ?); [lia|done|].
    destruct (IH (S key) st1) as (? & Hobjs & Hsub); [lia|lia|lia|done|done|].
    split_and!; [done|congruence|by etrans].
  - apply IH; [lia|lia|lia|done].
Qed.

Lemma SetSession_valid session st st' :
  valid st → SetSession growcap session st = Some st' → valid st'.
Proof.
  intros Hv Hset.
  destruct (deref st session) as [s|] eqn:Hs;
    [|by unfold SetSession in Hset; rewrite Hs in Hset].
  destruct (SetSession_spec growcap session s st Hv Hs)
    as (res & st2 & _ & Hset' & Hres).
  rewrite Hset' in Hset. injection Hset as <-.
  destruct Hv as [Hwf Hall]. destruct res as [a|].
  - destruct Hres as (r & Hr & ->). split; [done|].
    eapply Forall_impl; [done|]. intros [b|] Hp; [|done].
    unfold deref in *. simpl in *. destruct (decide (a = b)) as [<-|Hne].
    + rewrite list_lookup_insert_eq by (by eapply lookup_lt_Some). done.
    + by rewrite list_lookup_insert_ne.
  - destruct Hres as (Hobjs & Hheld & Hwf' & _). split; [done|].
    rewrite Hheld. apply Forall_app. split.
    + eapply Forall_impl; [done|]. intros p. unfold deref. by rewrite Hobjs.
    + constructor; [|done]. unfold deref in *. by rewrite Hobjs, Hs.
Qed.
Lemma DropSession_filter id st :
  unique_ids st →
  ∃ st', DropSession growcap id st = Some st' ∧ objs st' = objs st
    ∧ wf_slice (arrs st') (Sessions st')
    ∧ held st' ≡ₚ filter (λ p, ID <$> deref st p ≠ Some id) (held st).
Proof.
  intros Hinv. pose proof Hinv as [_ Hnd].
  destruct (DropSession_spec growcap id st Hinv)
    as (st' & Hdrop & Hobjs & Hwf' & Hheld).
  exists st'. split_and!; [done|done|done|]. rewrite Hheld. unfold position.
  destruct (list_find _ (ids st)) as [[k o]|] eqn:Hfind; simpl.
  - apply list_find_Some in Hfind as (Hk & -> & _).
    rewrite dropped_at_perm.
    by rewrite (filter_delete_unique (λ p, ID <$> deref st p) _ k (Some id)).
  - apply list_find_None in Hfind.
    rewrite filter_absent; [done|].
    intros Hin. rewrite Forall_forall in Hfind. by apply (Hfind _ Hin).
Qed.

Lemma GetSession_absent id st :
  valid st → Some id ∉ ids st →
  GetSession id st = Some (nil, st) ∧ Contains id st = Some (false, st).
Proof.
  intros [_ Hall] Hid.
  destruct (GetSession_range_spec st id (held st) Hall) as (res & Hres & Hfound).
  assert (res = nil) as ->.
  { destruct res as [a|]; [|done]. destruct Hfound as (i & s & Hi & Hs & <- & _).
    exfalso. apply Hid. unfold ids.
    apply (list_elem_of_fmap_2' _ _ (Some a)); [by eapply list_elem_of_lookup_2|].
    unfold deref. simpl. by rewrite Hs. }
  unfold GetSession, Contains. by rewrite Contains_range_GetSession, Hres.
Qed.

(** X1: [Contains] answers exactly as [GetSession] does: on every store it
    panics when [GetSession] panics, and otherwise reports true exactly when
    [GetSession] returns a session; neither changes the store. *)
Theorem Contains_agrees_with_GetSession id st :
  Contains id st
  = (λ rs : ptr * state, (bool_decide (rs.1 ≠ nil), rs.2)) <$> GetSession id st.
Proof.
  unfold Contains, GetSession. rewrite Contains_range_GetSession.
  by destruct (GetSession_range st id (held st)).
Qed.

(** X2: [CreateSession(id)] on a store whose held pointers are valid
    appends one record with the ID, no values and the current instant as
    activity stamp, and returns the pointer to it. A lookup of the ID
    afterwards returns that new record only when no record carried the ID
    before; otherwise it still returns the earlier record, and the new one
    cannot be reached through [GetSession]. *)
Theorem CreateSession_then_GetSession now id st :
  valid st →
  ∃ p st' res q,
    CreateSession growcap now id st = Some (p, st')
    ∧ deref st' p = Some (mkSession id [] now)
    ∧ held st' = held st ++ [p]
    ∧ GetSession id st = Some (res, st)
    ∧ GetSession id st' = Some (q, st')
    ∧ q = match res with Some _ => res | None => p end.
Proof.
  intros Hv. pose proof Hv as [_ Hall].
  destruct (CreateSession_spec growcap now id st Hv)
    as (st' & Hcreate & Hobjs & Hheld & _).
  destruct (GetSession_range_spec st id (held st) Hall) as (res & Hres & _).
  assert (deref st' (Some (length (objs st))) = Some (mkSession id [] now))
    as Hnew.
  { unfold deref. simpl. rewrite Hobjs, lookup_app_r by done.
    by rewrite Nat.sub_diag. }
  exists (Some (length (objs st))), st', res,
    (match res with Some _ => res | None => Some (length (objs st)) end).
  split_and!; [done|done|done|by unfold GetSession; rewrite Hres| |done].
  unfold GetSession. rewrite Hheld, GetSession_range_app.
  rewrite (GetSession_range_ext st st' id (held st)); cycle 1.
  { eapply Forall_impl; [done|]. intros p Hp. simpl.
    by rewrite (deref_grow st st' _ p Hobjs Hp). }
  rewrite Hres. destruct res; [done|].
  cbn [GetSession_range mbind option_bind]. rewrite Hnew. simpl.
  by rewrite decide_True.
Qed.

(** X3: [CreateSession], [SetSession] and [DropSession] keep the store well
    formed: after each of them the collection lies within its backing array
    and every pointer it holds refers to a session. *)
Theorem mutations_keep_store_valid now id session st :
  valid st →
  (∃ p st', CreateSession growcap now id st = Some (p, st') ∧ valid st')
  ∧ (∀ st', SetSession growcap session st = Some st' → valid st')
  ∧ (∀ st', DropSession growcap id st = Some st' → valid st').
Proof.
  intros Hv. split_and!.
  - destruct (CreateSession_spec growcap now id st Hv) as (st' & Hcreate & _).
    exists (Some (length (objs st))), st'. split; [done|].
    by destruct (CreateSession_ids growcap now id st _ st' Hv Hcreate).
  - intros st'. by apply SetSession_valid.
  - intros st' Hdrop.
    destruct (DropSession_loop_shrink _ _ _ _ _ _ (proj1 Hv) Hdrop)
      as (? & ? & ?).
    by eapply valid_shrink.
Qed.

(** X4: [DropSession] with an ID that no held record carries returns with
    the store exactly as it was. *)
Theorem DropSession_absent_id id st :
  valid st → Some id ∉ ids st → DropSession growcap id st = Some st.
Proof.
  intros [Hwf Hall] Hid. unfold DropSession.
  apply DropSession_loop_skip. intros j Hj.
  destruct (lookup_lt_is_Some_2 (held st) j) as [p Hp].
  { unfold held. rewrite length_elems by done. lia. }
  destruct (Forall_lookup_1 _ _ _ _ Hall Hp) as [s Hs].
  exists p, s. split_and!; [by rewrite index_held|done|].
  intros <-. apply Hid. unfold ids.
  apply (list_elem_of_fmap_2' _ _ p); [by eapply list_elem_of_lookup_2|].
  by rewrite Hs.
Qed.

(** X5: on a store with at most one Session per ID, [DropSession(id)]
    followed by [GetSession(id)] returns nil, and [Contains(id)] reports
    false. *)
Theorem DropSession_then_GetSession id st :
  unique_ids st →
  ∃ st', DropSession growcap id st = Some st'
    ∧ GetSession id st' = Some (nil, st')
    ∧ Contains id st' = Some (false, st').
Proof.
  intros Hinv.
  destruct (DropSession_filter id st Hinv) as (st' & Hdrop & Hobjs & Hwf' & Hheld).
  exists st'. split; [done|]. apply GetSession_absent.
  - eapply valid_shrink; [apply Hinv|done|done|].
    rewrite Hheld. apply sublist_submseteq, sublist_filter.
  - unfold ids. intros (p & Hp & Hin)%list_elem_of_fmap.
    rewrite Hheld in Hin. apply list_elem_of_filter in Hin as [Hne _].
    apply Hne. rewrite Hp. unfold deref. by rewrite Hobjs.
Qed.

(** X6: on a store with at most one Session per ID, [DropSession(id)]
    touches no Session object and leaves in the collection exactly the
    records that do not carry the ID, each once (in some order). *)
Theorem DropSession_keeps_the_others id st :
  unique_ids st →
  ∃ st', DropSession growcap id st = Some st' ∧ objs st' = objs st
    ∧ held st' ≡ₚ filter (λ p, ID <$> deref st p ≠ Some id) (held st).
Proof.
  intros Hinv.
  destruct (DropSession_filter id st Hinv) as (st' & ? & ? & _ & ?).
  by exists st'.
Qed.

(** X7: on any well-formed store, with or without repeated IDs,
    [DropSession] never modifies a Session object and never adds to the
    collection: whenever it returns, what the collection holds is part of
    what it held. *)
Theorem DropSession_never_adds id st st' :
  valid st → DropSession growcap id st = Some st' →
  objs st' = objs st ∧ held st' ⊆+ held st.
Proof.
  intros [Hwf _] Hdrop.
  by destruct (DropSession_loop_shrink _ _ _ _ _ _ Hwf Hdrop) as (_ & ? & ?).
Qed.

(** X8: on a well-formed store holding any number of records other than
    three, [CleanSessions] never modifies a Session object and never adds
    to the collection: whenever it returns, what the collection holds is
    part of what it held, and the store is still well formed. *)
Theorem CleanSessions_never_adds now st st' :
  valid st → s_len (Sessions st) ≠ 3 →
  CleanSessions growcap now st = Some st' →
  objs st' = objs st ∧ held st' ⊆+ held st ∧ valid st'.
Proof.
  intros Hv Hn Hclean.
  destruct (CleanSessions_loop_shrink (now - SessionTimeout st)%Z
              (Sessions st) 0 (s_len (Sessions st)) st st')
    as (Hwf' & Hobjs & Hsub); [exact Hn|lia|lia|apply Hv|exact Hclean|].
  split_and!; [done|done|by eapply valid_shrink].
Qed.

(** X9: after [SetSession(session)], [GetSession] with the session's ID
    returns a record that carries that ID and whose values are the incoming
    session's values. *)
Theorem SetSession_then_GetSession session s st :
  valid st → deref st session = Some s →
  ∃ st' a r, SetSession growcap session st = Some st'
    ∧ GetSession (ID s) st' = Some (Some a, st')
    ∧ deref st' (Some a) = Some r ∧ ID r = ID s ∧ Values r = Values s.
Proof.
  intros Hv Hs. pose proof Hv as [Hwf Hall].
  destruct (SetSession_spec growcap session s st Hv Hs)
    as (res & st' & Hget & Hset & Hres).
  unfold GetSession in Hget.
  destruct (GetSession_range st (ID s) (held st)) as [res'|] eqn:Hrange;
    [|done].
  simpl in Hget. injection Hget as ->.
  destruct res as [a|].
  - destruct Hres as (r & Hr & ->).
    apply GetSession_range_sound in Hrange as Hsound.
    destruct Hsound as (i & r0 & _ & Hr0 & Hid & _).
    assert (r0 = r) as -> by congruence.
    eexists. exists a, (mkSession (ID r) (Values s) (ActivityDate r)).
    split_and!; [done| | |done|done].
    + unfold GetSession, held. simpl. fold (held st).
      rewrite (GetSession_range_ext st), Hrange; [done|].
      apply Forall_true. intros [b|]; [|done]. unfold deref. simpl.
      destruct (decide (a = b)) as [<-|Hne].
      * rewrite list_lookup_insert_eq by (by eapply lookup_lt_Some).
        by rewrite Hr.
      * by rewrite list_lookup_insert_ne.
    + unfold deref. simpl.
      by rewrite list_lookup_insert_eq by (by eapply lookup_lt_Some).
  - destruct Hres as (Hobjs & Hheld & _ & _).
    assert (∀ p, deref st' p = deref st p) as Hderef.
    { intros p. unfold deref. by rewrite Hobjs. }
    destruct session as [b|]; [|done].
    exists st', b, s. split_and!; [done| |by rewrite Hderef|done|done].
    unfold GetSession. rewrite Hheld, GetSession_range_app.
    rewrite (GetSession_range_ext st st' (ID s) (held st)), Hrange
      by (apply Forall_true; intros p; by rewrite Hderef).
    cbn [GetSession_range mbind option_bind]. rewrite Hderef, Hs. simpl.
    by rewrite decide_True.
Qed.

(** X10: [SetSession] is idempotent: setting the same session a second
    time, right after the first, returns with the store as the first call
    left it. *)
Theorem SetSession_idempotent session st st' :
  valid st → SetSession growcap session st = Some st' →
  SetSession growcap session st' = Some st'.
Proof.
  intros Hv Hset. pose proof (SetSession_valid _ _ _ Hv Hset) as Hv'.
  destruct (deref st session) as [s|] eqn:Hs;
    [|by unfold SetSession in Hset; rewrite Hs in Hset].
  destruct (SetSession_spec growcap session s st Hv Hs)
    as (res & st1 & Hget & Hset1 & Hres).
  rewrite Hset1 in Hset. injection Hset as ->.
  unfold GetSession in Hget.
  destruct (GetSession_range st (ID s) (held st)) as [res'|] eqn:Hrange;
    [|done].
  simpl in Hget. injection Hget as ->.
  destruct res as [a|].
  - destruct Hres as (r & Hr & ->).
    apply GetSession_range_sound in Hrange as Hsound.
    destruct Hsound as (i & r0 & _ & Hr0 & Hid & _).
    assert (r0 = r) as -> by congruence.
    set (r' := mkSession (ID r) (Values s) (ActivityDate r)) in *.
    set (st' := set_objs (<[a:=r']> (objs st)) st) in *.
    assert (objs st' !! a = Some r') as Hr'.
    { unfold st'. simpl.
      by rewrite list_lookup_insert_eq by (by eapply lookup_lt_Some). }
    assert (∃ s2, deref st' session = Some s2 ∧ ID s2 = ID s
                  ∧ Values s2 = Values s) as (s2 & Hs2 & Hid2 & Hval2).
    { destruct session as [b|]; [|done]. unfold deref in *. simpl in *.
      destruct (decide (a = b)) as [<-|Hne].
      - exists r'. split_and!; [|done..].
        by rewrite list_lookup_insert_eq by (by eapply lookup_lt_Some).
      - exists s. by rewrite list_lookup_insert_ne. }
    destruct (SetSession_spec growcap session s2 st' Hv' Hs2)
      as (res2 & st2 & Hget2 & -> & Hres2).
    assert (GetSession (ID s2) st' = Some (Some a, st')) as Hget'.
    { unfold GetSession. rewrite Hid2.
      change (held st') with (held st).
      rewrite (GetSession_range_ext st), Hrange; [done|].
      apply Forall_true. intros [b|]; [|done]. unfold deref, st'. simpl.
      destruct (decide (a = b)) as [<-|Hne].
      - rewrite list_lookup_insert_eq by (by eapply lookup_lt_Some).
        by rewrite Hr.
      - by rewrite list_lookup_insert_ne. }
    rewrite Hget' in Hget2. injection Hget2 as <-.
    destruct Hres2 as (r2 & Hr2 & ->). f_equal.
    assert (r2 = r') as -> by congruence.
    rewrite Hval2. change (mkSession (ID r') (Values s) (ActivityDate r')) with r'.
    by rewrite (list_insert_id _ _ _ Hr').
  - destruct Hres as (Hobjs & Hheld & _ & _).
    assert (∀ p, deref st' p = deref st p) as Hderef.
    { intros p. unfold deref. by rewrite Hobjs. }
    destruct session as [b|]; [|done].
    assert (deref st' (Some b) = Some s) as Hs' by (by rewrite Hderef).
    destruct (SetSession_spec growcap (Some b) s st' Hv' Hs')
      as (res2 & st2 & Hget2 & -> & Hres2).
    assert (GetSession (ID s) st' = Some (Some b, st')) as Hget'.
    { unfold GetSession. rewrite Hheld, GetSession_range_app.
      rewrite (GetSession_range_ext st st' (ID s) (held st)), Hrange
        by (apply Forall_true; intros p; by rewrite Hderef).
      cbn [GetSession_range mbind option_bind]. rewrite Hs'. simpl.
      by rewrite decide_True. }
    rewrite Hget' in Hget2. injection Hget2 as <-.
    destruct Hres2 as (r2 & Hr2 & ->). f_equal.
    assert (r2 = s) as ->.
    { unfold deref in Hs'. simpl in Hs'. congruence. }
    replace (mkSession (ID s) (Values s) (ActivityDate s)) with s
      by (by destruct s).
    rewrite (list_insert_id _ _ _ Hr2). by destruct st'.
Qed.
(** What the iterations after a removal at key [k] read from the range's
    backing array: records the collection held at other positions. *)
Lemma DropSession_body_reads st k :
  wf_slice (arrs st) (Sessions st) → k < s_len (Sessions st) →
  ∃ st', DropSession_body growcap k st = Some st'
    ∧ objs st' = objs st ∧ wf_slice (arrs st') (Sessions st')
    ∧ held st' = dropped_at k (held st)
    ∧ ∀ j, k < j < s_len (Sessions st) →
        ∃ j', j' ≠ k ∧ j' < s_len (Sessions st)
              ∧ index (arrs st') (Sessions st) j = held st !! j'.
Proof.
  intros Hwf Hlt. pose proof Hwf as [Harr Hbound].
  unfold DropSession_body. repeat case_decide.
  - unfold cut_at, slice_to, slice_from.
    rewrite !decide_True by (unfold cap; lia). simpl.
    set (a := Slice _ _ k). set (b := Slice _ _ _).
    destruct (append growcap (arrs st) a (elems (arrs st) b)) as [h' s']
      eqn:Happ.
    assert (wf_slice (arrs st) a) as Hwfa.
    { split; simpl; [done|]. unfold backing in *. simpl. lia. }
    assert (elems (arrs st) b = drop (S k) (held st)) as Hb.
    { unfold held, elems, backing, b. simpl.
      rewrite skipn_firstn_comm, drop_drop. do 2 f_equal; lia. }
    assert (length (elems (arrs st) b) = s_len (Sessions st) - S k) as Hlenb.
    { rewrite Hb, length_drop. unfold held. by rewrite length_elems. }
    destruct (append_spec growcap _ _ _ _ _ Hwfa Happ) as (He & Hwf' & _).
    pose proof (append_backing growcap _ _ _ _ _ (Sessions st) Hwfa Happ Harr)
      as Hback.
    rewrite decide_True in Hback by (unfold cap, backing in *; simpl; lia).
    eexists. split; [reflexivity|]. simpl. split_and!; [done|done| |].
    + unfold held at 1. simpl. rewrite He.
      assert (elems (arrs st) a = take k (held st)) as ->.
      { unfold held, elems, backing, a. simpl. rewrite take_take.
        f_equal. lia. }
      rewrite Hb. destruct k as [|[|k]]; [lia|lia|].
      simpl. by rewrite <- delete_take_drop.
    + intros j Hj.
      destruct (decide (j < s_len (Sessions st) - 1)) as [Hin|Hlast].
      * exists (S j). split_and!; [lia|lia|].
        unfold index. rewrite decide_True by lia. simpl. rewrite Hback.
        change (backing (arrs st) a) with (backing (arrs st) (Sessions st)).
        rewrite list_lookup_inserts
          by (rewrite ?Hlenb; unfold backing in *; simpl; lia).
        rewrite Hb, lookup_drop. f_equal. simpl. lia.
      * exists j. split_and!; [lia|lia|].
        unfold index. rewrite decide_True by lia. simpl. rewrite Hback.
        change (backing (arrs st) a) with (backing (arrs st) (Sessions st)).
        rewrite list_lookup_inserts_ge by (rewrite Hlenb; simpl; lia).
        rewrite <- index_held by done. unfold index.
        by rewrite decide_True by lia.
  - subst k. unfold rotate, slice_from. rewrite decide_True by lia. simpl.
    rewrite index_held by done.
    destruct (lookup_lt_is_Some_2 (held st) 0) as [x Hx].
    { unfold held. rewrite length_elems by done. lia. }
    rewrite Hx. simpl.
    set (a := Slice _ _ _).
    destruct (append growcap (arrs st) a [x]) as [h' s'] eqn:Happ.
    assert (wf_slice (arrs st) a) as Hwfa.
    { split; simpl; [done|]. unfold backing in *. simpl. lia. }
    destruct (append_spec growcap _ _ _ _ _ Hwfa Happ) as (He & Hwf' & _).
    pose proof (append_backing growcap _ _ _ _ _ (Sessions st) Hwfa Happ Harr)
      as Hback.
    eexists. split; [reflexivity|]. simpl. split_and!; [done|done| |].
    + unfold held at 1. simpl. rewrite He. f_equal.
      * unfold held, elems, backing, a. simpl.
        rewrite skipn_firstn_comm, drop_drop. do 2 f_equal.
      * clear -Hx. destruct (held st); simpl in *; by simplify_eq.
    + intros j Hj. exists j. split_and!; [lia|lia|].
      rewrite <- index_held by done. unfold index.
      rewrite !decide_True by lia. simpl. rewrite Hback. case_decide; [|done].
      change (backing (arrs st) a) with (backing (arrs st) (Sessions st)).
      rewrite list_lookup_inserts_lt by (simpl; lia). done.
  - assert (k = 0) as -> by lia.
    unfold slice_from. rewrite decide_True by lia. simpl.
    eexists. split; [reflexivity|]. simpl. split_and!; [done| | |].
    + split; simpl; [done|]. unfold backing in *. simpl. lia.
    + unfold held, elems, backing. simpl.
      by rewrite skipn_firstn_comm, drop_drop.
    + intros j Hj. exists j. split_and!; [lia|lia|].
      simpl. by rewrite index_held.
Qed.

(** With more than one record in the collection, the removal of
    [CleanSessions] is the removal of [DropSession]. *)
Lemma CleanSessions_body_many key st :
  1 < s_len (Sessions st) →
  CleanSessions_body growcap key st = DropSession_body growcap key st.
Proof.
  intros Hlen. unfold CleanSessions_body, DropSession_body.
  repeat case_decide; done.
Qed.

Lemma CleanSessions_loop_skip expired r todo key st :
  (∀ j, key ≤ j < key + todo →
     ∃ p s, index (arrs st) r j = Some p ∧ deref st p = Some s
            ∧ ¬ (ActivityDate s < expired)%Z) →
  CleanSessions_loop growcap expired r key todo st = Some st.
Proof.
  revert key. induction todo as [|todo IH]; intros key Hpass; simpl; [done|].
  destruct (Hpass key) as (p & s & -> & Hs & Hne); [lia|]. simpl.
  rewrite Hs. simpl. rewrite decide_False by done. simpl.
  apply IH. intros j Hj. apply Hpass. lia.
Qed.

Lemma CleanSessions_loop_until expired r a key todo st :
  (∀ j, key ≤ j < key + a →
     ∃ p s, index (arrs st) r j = Some p ∧ deref st p = Some s
            ∧ ¬ (ActivityDate s < expired)%Z) →
  CleanSessions_loop growcap expired r key (a + todo) st
  = CleanSessions_loop growcap expired r (key + a) todo st.
Proof.
  revert key. induction a as [|a IH]; intros key Hpass; simpl.
  { by rewrite Nat.add_0_r. }
  destruct (Hpass key) as (p & s & -> & Hs & Hne); [lia|]. simpl.
  rewrite Hs. simpl. rewrite decide_False by done. simpl.
  rewrite IH by (intros j Hj; apply Hpass; lia). f_equal. lia.
Qed.

(** X11: when no held record is older than the timeout, [CleanSessions]
    returns with the store exactly as it was. *)
Theorem CleanSessions_nothing_expired now st :
  valid st →
  Forall (λ p, ∀ s, deref st p = Some s →
               ¬ (ActivityDate s < now - SessionTimeout st)%Z) (held st) →
  CleanSessions growcap now st = Some st.
Proof.
  intros [Hwf Hall] Hlive. unfold CleanSessions.
  apply CleanSessions_loop_skip. intros j Hj.
  destruct (lookup_lt_is_Some_2 (held st) j) as [p Hp].
  { unfold held. rewrite length_elems by done. lia. }
  destruct (Forall_lookup_1 _ _ _ _ Hall Hp) as [s Hs].
  exists p, s. split_and!; [by rewrite index_held|done|].
  by apply (Forall_lookup_1 _ _ _ _ Hlive Hp).
Qed.

(** X12: when exactly one held record is older than the timeout,
    [CleanSessions] returns, touches no Session object and takes exactly
    that record out of the collection; the others keep their order unless
    the expired record is the second one, in which case the first record
    moves to the end. *)
Theorem CleanSessions_single_expired now st k p s :
  valid st → held st !! k = Some p → deref st p = Some s →
  (ActivityDate s < now - SessionTimeout st)%Z →
  (∀ j q r, j ≠ k → held st !! j = Some q → deref st q = Some r →
            ¬ (ActivityDate r < now - SessionTimeout st)%Z) →
  ∃ st', CleanSessions growcap now st = Some st' ∧ objs st' = objs st
    ∧ held st' = match k with
                 | 1 => drop 2 (held st) ++ take 1 (held st)
                 | _ => delete k (held st)
                 end.
Proof.
  intros [Hwf Hall] Hp Hs Hold Hlive.
  assert (length (held st) = s_len (Sessions st)) as Hlen.
  { unfold held. by rewrite length_elems. }
  assert (k < s_len (Sessions st)) as Hlt.
  { rewrite <- Hlen. by eapply lookup_lt_Some. }
  assert (∀ st' j j', objs st' = objs st → j' ≠ k → j' < s_len (Sessions st) →
            index (arrs st') (Sessions st) j = held st !! j' →
            ∃ q r, index (arrs st') (Sessions st) j = Some q
                   ∧ deref st' q = Some r
                   ∧ ¬ (ActivityDate r < now - SessionTimeout st)%Z) as Hpass.
  { intros st' j j' Hobjs Hne Hj' Hidx.
    destruct (lookup_lt_is_Some_2 (held st) j') as [q Hq]; [lia|].
    destruct (Forall_lookup_1 _ _ _ _ Hall Hq) as [r Hr].
    exists q, r. split_and!; [by rewrite Hidx| |by eapply Hlive].
    unfold deref in *. by rewrite Hobjs. }
  assert (match k with
          | 1 => drop 2 (held st) ++ take 1 (held st)
          | _ => delete k (held st)
          end = dropped_at k (held st)) as ->.
  { destruct k as [|[|k]]; [by destruct (held st)|done|done]. }
  unfold CleanSessions.
  pose proof (CleanSessions_loop_until (now - SessionTimeout st)%Z (Sessions st)
                k 0 (S (s_len (Sessions st) - S k)) st) as Huntil.
  replace (k + S (s_len (Sessions st) - S k)) with (s_len (Sessions st))
    in Huntil by lia.
  rewrite Huntil; clear Huntil; cycle 1.
  { intros j Hj. apply (Hpass st j j); [done|lia|lia|by apply index_held]. }
  simpl. rewrite index_held by done. rewrite Hp. simpl. rewrite Hs. simpl.
  rewrite decide_True by done.
  destruct (decide (1 < s_len (Sessions st))) as [Hmany|Hone].
  - rewrite CleanSessions_body_many by done.
    destruct (DropSession_body_reads st k Hwf Hlt)
      as (st' & -> & Hobjs & Hwf' & Hheld & Hafter).
    simpl. exists st'. split_and!; [|done|done].
    apply CleanSessions_loop_skip. intros j Hj.
    destruct (Hafter j) as (j' & ? & ? & ?); [lia|].
    by apply (Hpass st' j j').
  - assert (k = 0) as -> by lia.
    assert (s_len (Sessions st) = 1) as Hn by lia.
    unfold CleanSessions_body. rewrite !decide_False by lia. simpl.
    rewrite Hn. simpl. eexists. split_and!; [reflexivity|done|].
    unfold held at 1, elems. simpl.
    destruct (held st) as [|x [|y l]]; simpl in *; (done || lia).
Qed.
End more.

Ltac solve_decide := refine (bool_decide_unpack _ _); vm_compute; exact I.

Lemma unique_ids_abc : unique_ids (store_of [sA; sB; sC] 0 10).
Proof. split; [apply valid_store_of|solve_decide]. Qed.

Lemma CreateSession_then_GetSession_witness :
  valid (store_of [sA; sB] 0 10) ∧
  ∃ p st' res q,
    CreateSession doubling 100 "a" (store_of [sA; sB] 0 10) = Some (p, st')
    ∧ deref st' p = Some (mkSession "a" [] 100)
    ∧ held st' = held (store_of [sA; sB] 0 10) ++ [p]
    ∧ GetSession "a" (store_of [sA; sB] 0 10)
      = Some (res, store_of [sA; sB] 0 10)
    ∧ GetSession "a" st' = Some (q, st')
    ∧ q = match res with Some _ => res | None => p end.
Proof.
  split; [apply valid_store_of|].
  apply (CreateSession_then_GetSession doubling 100 "a" (store_of [sA; sB] 0 10)).
  apply valid_store_of.
Defined.

Lemma mutations_keep_store_valid_witness :
  valid (store_of [sA; sB] 0 10) ∧
  (∃ p st', CreateSession doubling 100 "c" (store_of [sA; sB] 0 10)
            = Some (p, st') ∧ valid st')
  ∧ (∀ st', SetSession doubling (Some 1) (store_of [sA; sB] 0 10) = Some st' →
            valid st')
  ∧ (∀ st', DropSession doubling "c" (store_of [sA; sB] 0 10) = Some st' →
            valid st').
Proof.
  split; [apply valid_store_of|].
  apply (mutations_keep_store_valid doubling 100 "c" (Some 1)
           (store_of [sA; sB] 0 10)).
  apply valid_store_of.
Defined.

Lemma DropSession_absent_id_witness :
  valid (store_of [sA; sB] 0 10) ∧
  (Some "z" ∉ ids (store_of [sA; sB] 0 10)) ∧
  DropSession doubling "z" (store_of [sA; sB] 0 10)
  = Some (store_of [sA; sB] 0 10).
Proof.
  assert (Some "z" ∉ ids (store_of [sA; sB] 0 10)) as Hz by solve_decide.
  split; [apply valid_store_of|]. split; [exact Hz|].
  apply (DropSession_absent_id doubling "z" (store_of [sA; sB] 0 10));
    [apply valid_store_of|exact Hz].
Defined.

Lemma DropSession_then_GetSession_witness :
  unique_ids (store_of [sA; sB; sC] 0 10) ∧
  ∃ st', DropSession doubling "b" (store_of [sA; sB; sC] 0 10) = Some st'
    ∧ GetSession "b" st' = Some (nil, st')
    ∧ Contains "b" st' = Some (false, st').
Proof.
  split; [exact unique_ids_abc|].
  exact (DropSession_then_GetSession doubling "b" (store_of [sA; sB; sC] 0 10)
           unique_ids_abc).
Defined.

Lemma DropSession_keeps_the_others_witness :
  unique_ids (store_of [sA; sB; sC] 0 10) ∧
  ∃ st', DropSession doubling "b" (store_of [sA; sB; sC] 0 10) = Some st'
    ∧ objs st' = objs (store_of [sA; sB; sC] 0 10)
    ∧ held st' ≡ₚ filter (λ p, ID <$> deref (store_of [sA; sB; sC] 0 10) p
                               ≠ Some "b")
                         (held (store_of [sA; sB; sC] 0 10)).
Proof.
  split; [exact unique_ids_abc|].
  exact (DropSession_keeps_the_others doubling "b" (store_of [sA; sB; sC] 0 10)
           unique_ids_abc).
Defined.

Lemma DropSession_never_adds_witness :
  valid (store_of [sA; sA; sB] 0 10) ∧
  match DropSession doubling "a" (store_of [sA; sA; sB] 0 10) with
  | Some st' =>
      objs st' = objs (store_of [sA; sA; sB] 0 10)
      ∧ held st' ⊆+ held (store_of [sA; sA; sB] 0 10)
  | None => False
  end.
Proof.
  split; [apply valid_store_of|].
  destruct (DropSession doubling "a" (store_of [sA; sA; sB] 0 10)) as [st'|]
    eqn:Hdrop; [|by vm_compute in Hdrop].
  exact (DropSession_never_adds doubling "a" (store_of [sA; sA; sB] 0 10) st'
           (valid_store_of _ _ _) Hdrop).
Defined.

Lemma CleanSessions_never_adds_witness :
  valid (store_of [sA; fX] 0 10) ∧ s_len (Sessions (store_of [sA; fX] 0 10)) ≠ 3 ∧
  match CleanSessions doubling 100 (store_of [sA; fX] 0 10) with
  | Some st' =>
      objs st' = objs (store_of [sA; fX] 0 10)
      ∧ held st' ⊆+ held (store_of [sA; fX] 0 10) ∧ valid st'
  | None => False
  end.
Proof.
  assert (s_len (Sessions (store_of [sA; fX] 0 10)) ≠ 3) as Hn by (simpl; lia).
  split; [apply valid_store_of|]. split; [exact Hn|].
  destruct (CleanSessions doubling 100 (store_of [sA; fX] 0 10)) as [st'|]
    eqn:Hclean; [|by vm_compute in Hclean].
  exact (CleanSessions_never_adds doubling 100 (store_of [sA; fX] 0 10) st'
           (valid_store_of _ _ _) Hn Hclean).
Defined.

Lemma SetSession_then_GetSession_witness :
  valid upsert_store ∧ deref upsert_store (Some 1) = Some incoming_a ∧
  ∃ st' a r, SetSession doubling (Some 1) upsert_store = Some st'
    ∧ GetSession (ID incoming_a) st' = Some (Some a, st')
    ∧ deref st' (Some a) = Some r ∧ ID r = ID incoming_a
    ∧ Values r = Values incoming_a.
Proof.
  assert (valid upsert_store) as Hv by solve_valid.
  split; [exact Hv|]. split; [reflexivity|].
  apply (SetSession_then_GetSession doubling (Some 1) incoming_a upsert_store Hv).
  reflexivity.
Defined.

Lemma SetSession_idempotent_witness :
  valid upsert_store ∧
  match SetSession doubling (Some 1) upsert_store with
  | Some st' => SetSession doubling (Some 1) st' = Some st'
  | None => False
  end.
Proof.
  assert (valid upsert_store) as Hv by solve_valid.
  split; [exact Hv|].
  destruct (SetSession doubling (Some 1) upsert_store) as [st'|] eqn:Hset;
    [|by vm_compute in Hset].
  exact (SetSession_idempotent doubling (Some 1) upsert_store st' Hv Hset).
Defined.

Lemma CleanSessions_nothing_expired_witness :
  valid (store_of [fX; fY] 0 10) ∧
  Forall (λ p, ∀ s, deref (store_of [fX; fY] 0 10) p = Some s →
               ¬ (ActivityDate s
                  < 100 - SessionTimeout (store_of [fX; fY] 0 10))%Z)
         (held (store_of [fX; fY] 0 10)) ∧
  CleanSessions doubling 100 (store_of [fX; fY] 0 10)
  = Some (store_of [fX; fY] 0 10).
Proof.
  assert (Forall (λ p, ∀ s, deref (store_of [fX; fY] 0 10) p = Some s →
               ¬ (ActivityDate s
                  < 100 - SessionTimeout (store_of [fX; fY] 0 10))%Z)
            (held (store_of [fX; fY] 0 10))) as Hlive.
  { repeat constructor; intros s [= <-]; simpl; lia. }
  split; [apply valid_store_of|]. split; [exact Hlive|].
  exact (CleanSessions_nothing_expired doubling 100 (store_of [fX; fY] 0 10)
           (valid_store_of _ _ _) Hlive).
Defined.

Lemma CleanSessions_single_expired_witness :
  valid (store_of [fX; fY; sA] 0 10) ∧
  held (store_of [fX; fY; sA] 0 10) !! 2 = Some (Some 2) ∧
  deref (store_of [fX; fY; sA] 0 10) (Some 2) = Some sA ∧
  (ActivityDate sA < 100 - SessionTimeout (store_of [fX; fY; sA] 0 10))%Z ∧
  ∃ st', CleanSessions doubling 100 (store_of [fX; fY; sA] 0 10) = Some st'
    ∧ objs st' = objs (store_of [fX; fY; sA] 0 10)
    ∧ held st' = delete 2 (held (store_of [fX; fY; sA] 0 10)).
Proof.
  assert ((ActivityDate sA
           < 100 - SessionTimeout (store_of [fX; fY; sA] 0 10))%Z) as Hold
    by (simpl; lia).
  split; [apply valid_store_of|]. split; [reflexivity|].
  split; [reflexivity|]. split; [exact Hold|].
  apply (CleanSessions_single_expired doubling 100 (store_of [fX; fY; sA] 0 10)
           2 (Some 2) sA (valid_store_of _ _ _) eq_refl eq_refl Hold).
  intros [|[|[|j]]] q r Hj Hq Hr; vm_compute in Hq; simplify_eq;
    vm_compute in Hr; simplify_eq; simpl; lia.
Defined.

End SessionMore.

(** ** More on action results *)

Module ActionResultMore.
Import ActionResultV01.

Lemma HeaderSet_in_Execute visit result k v :
  HeaderSet k v ∈ (Execute visit result).1 ↔ (k, v) ∈ visit.
Proof.
  assert (HeaderSet k v ∈ (λ kv : string * string, HeaderSet kv.1 kv.2) <$> visit
          ↔ (k, v) ∈ visit) as Hh.
  { rewrite list_elem_of_fmap. split.
    - intros ([k' v'] & [= -> ->] & Hin). done.
    - intros Hin. by exists (k, v). }
  assert (∀ l : list Cookie, HeaderSet k v ∉ SetCookie <$> l) as Hc.
  { intros l (c & [=] & _)%list_elem_of_fmap. }
  unfold Execute. case_decide; simpl.
  - rewrite elem_of_app, Hh. split; [|by left].
    intros [|Hin]; [done|]. by apply Hc in Hin.
  - rewrite !elem_of_app, Hh. split; [|by left].
    intros [|[Hin|Hin]]; [done|by apply Hc in Hin|].
    apply elem_of_cons in Hin as [[=]|Hin].
    by apply list_elem_of_singleton in Hin.
Qed.

(** X13: after [AddHeader(key, val)], whatever order the headers are
    visited in, the v0.1 [Execute] sets the header [key] to [val] and to
    nothing else, and sets every other header exactly as the result held it
    before; a second [AddHeader] for the same key replaces the first. *)
Theorem AddHeader_then_Execute visit result key val :
  visit ≡ₚ map_to_list (Headers (AddHeader key val result)) →
  (∀ v, HeaderSet key v ∈ (Execute visit (AddHeader key val result)).1
        ↔ v = val)
  ∧ (∀ k v, k ≠ key →
       HeaderSet k v ∈ (Execute visit (AddHeader key val result)).1
       ↔ Headers result !! k = Some v)
  ∧ (∀ val', AddHeader key val (AddHeader key val' result)
             = AddHeader key val result).
Proof.
  intros Hvisit. split_and!.
  - intros v. rewrite HeaderSet_in_Execute, Hvisit, elem_of_map_to_list.
    simpl. rewrite lookup_insert_eq. naive_solver.
  - intros k v Hk. rewrite HeaderSet_in_Execute, Hvisit, elem_of_map_to_list.
    simpl. by rewrite lookup_insert_ne.
  - intros val'. unfold AddHeader. simpl. by rewrite insert_insert_eq.
Qed.

Lemma AddHeader_then_Execute_witness :
  let result := NewActionResult (String.list_byte_of_string "Needs a body") in
  let visit := [("TestHeader", "TestValue")] in
  visit ≡ₚ map_to_list (Headers (AddHeader "TestHeader" "TestValue" result)) ∧
  (∀ v, HeaderSet "TestHeader" v
          ∈ (Execute visit (AddHeader "TestHeader" "TestValue" result)).1
        ↔ v = "TestValue")
  ∧ (∀ k v, k ≠ "TestHeader" →
       HeaderSet k v
         ∈ (Execute visit (AddHeader "TestHeader" "TestValue" result)).1
       ↔ Headers result !! k = Some v)
  ∧ (∀ val', AddHeader "TestHeader" "TestValue"
               (AddHeader "TestHeader" val' result)
             = AddHeader "TestHeader" "TestValue" result).
Proof.
  intros result visit.
  assert (visit ≡ₚ map_to_list
                     (Headers (AddHeader "TestHeader" "TestValue" result)))
    as Hvisit.
  { unfold visit, result, AddHeader, NewActionResult. simpl.
    by rewrite insert_empty, map_to_list_singleton. }
  split; [exact Hvisit|].
  exact (AddHeader_then_Execute visit result "TestHeader" "TestValue" Hvisit).
Defined.

(** X14: a result built by [NewActionResult] and any sequence of
    [AddCookie] calls: the v0.1 [Execute] sets the cookies in the order they
    were added and then writes status 200 and the data; when the data is
    empty it sets the cookies, writes nothing else and returns the error. *)
Theorem AddCookie_then_Execute data cookies :
  Execute [] (foldl (λ r c, AddCookie c r) (NewActionResult data) cookies)
  = if decide (data = [])
    then (SetCookie <$> cookies, Some "No response from request")
    else ((SetCookie <$> cookies) ++ [WriteHeader 200; Write data], None).
Proof.
  assert (∀ r, StatusCode (foldl (λ r c, AddCookie c r) r cookies) = StatusCode r
               ∧ Data (foldl (λ r c, AddCookie c r) r cookies) = Data r
               ∧ Cookies (foldl (λ r c, AddCookie c r) r cookies)
                 = Cookies r ++ cookies) as Hfold.
  { induction cookies as [|c cookies IH]; intros r; simpl.
    - by rewrite app_nil_r.
    - destruct (IH (AddCookie c r)) as (-> & -> & ->). simpl.
      by rewrite <- app_assoc. }
  destruct (Hfold (NewActionResult data)) as (Hs & Hd & Hc).
  unfold Execute. rewrite Hs, Hd, Hc. simpl.
  destruct (decide (data = [])) as [->|Hne].
  - by rewrite decide_True by (simpl; lia).
  - by rewrite decide_False by (destruct data; simpl; [done|lia]).
Qed.

(** X15: the later [Execute] never returns an error. On a result with data
    it makes the calls the v0.1 [Execute] makes and returns nil as it does;
    on a result without data, where v0.1 stops with its error after the
    headers and cookies, it goes on to write the status code and an empty
    body. *)
Theorem Execute_later_never_errors visit result :
  (ActionResultV03.Execute visit result).2 = None
  ∧ ActionResultV03.Execute visit result
    = if decide (Data result = [])
      then ((Execute visit result).1
              ++ [WriteHeader (StatusCode result); Write []], None)
      else Execute visit result.
Proof.
  unfold ActionResultV03.Execute, Execute. simpl. split; [done|].
  destruct (decide (Data result = [])) as [Hdata|Hdata].
  - rewrite Hdata. simpl. by rewrite <- app_assoc.
  - rewrite decide_False; [done|].
    destruct (Data result); simpl; [done|lia].
Qed.

(** X28: the later [NewJSONResult] returns a result or an error, never
    both and never neither. A result it returns carries the bytes
    [json.Marshal] gave, which are not empty, for a payload that is not nil;
    executing it, with either version of [Execute], writes status 200 and
    those bytes and returns nil, so the "No response from request" error of
    v0.1 cannot come from it. *)
Theorem NewJSONResult_then_Execute payload_nil data err :
  let r := ActionResultV03.NewJSONResult payload_nil (data, err) in
  (r.1 = None ↔ is_Some r.2)
  ∧ (r.1 = None ↔ data = [] ∨ payload_nil = true)
  ∧ ∀ result, r.1 = Some result →
      data ≠ [] ∧ payload_nil = false
      ∧ Execute (map_to_list (Headers result)) result
        = ([WriteHeader 200; Write data], None)
      ∧ ActionResultV03.Execute (map_to_list (Headers result)) result
        = ([WriteHeader 200; Write data], None).
Proof.
  unfold ActionResultV03.NewJSONResult. cbv zeta.
  destruct (decide (length data ≤ 0 ∨ payload_nil = true)) as [Hbad|Hok].
  - assert (data = [] ∨ payload_nil = true) as Hbad'.
    { destruct Hbad as [Hlen|?]; [left|by right].
      destruct data; simpl in *; [done|lia]. }
    destruct err; simpl; (split_and!; [by split; eauto|done|done]).
  - assert (data ≠ []) as Hdata by (intros ->; apply Hok; left; simpl; lia).
    assert (payload_nil = false) as Hnil.
    { destruct payload_nil; [|done]. exfalso. apply Hok. by right. }
    simpl. split_and!.
    + split; [done|]. by intros [? [=]].
    + split; [done|]. intros [?|?]; [done|congruence].
    + intros result [= <-]. split_and!; [done|done| |].
      * unfold Execute, NewActionResult. simpl. rewrite map_to_list_empty.
        rewrite decide_False; [done|]. destruct data; simpl; [done|lia].
      * unfold ActionResultV03.Execute, NewActionResult. simpl.
        by rewrite map_to_list_empty.
Qed.

End ActionResultMore.

(** ** Facts about the helpers *)

Module UtilFacts.
Import Util.

(** *** Template lookup *)

Lemma foldl_option_list {A B} (body : list B → A → list B)
    (first : A → option B) :
  (∀ rtn t, body rtn t = rtn ++ option_list (first t)) →
  ∀ ts rtn, foldl body rtn ts = rtn ++ omap first ts.
Proof.
  intros Hbody ts. induction ts as [|t ts IH]; intros rtn; simpl.
  { by rewrite app_nil_r. }
  rewrite IH, Hbody. destruct (first t); simpl.
  - by rewrite <- app_assoc.
  - by rewrite app_nil_r.
Qed.

Lemma length_omap_le {A B} (f : A → option B) (l : list A) :
  length (omap f l) ≤ length l.
Proof.
  induction l as [|x l IH]; cbn; [lia|]. destruct (f x); cbn in *; lia.
Qed.

Section templates.
Variable missing : string → bool.
Variable root : string.

(** The place taken for one template: the first of its candidates that
    [os.Stat] does not report missing, if any. *)
Lemma MakeTemplateList_body_first c rtn t :
  MakeTemplateList_body missing root c rtn t
  = rtn ++ option_list (snd <$> list_find (λ p, missing p = false)
                                          (candidates root c t)).
Proof.
  unfold MakeTemplateList_body, candidates. simpl.
  repeat (match goal with
          | |- context [missing ?p] => destruct (missing p) eqn:?
          end; simpl; try rewrite decide_True by done;
          try rewrite decide_False by done; simpl);
    try done.
  by rewrite app_nil_r.
Qed.

Lemma MakeTemplateList_foldl c rtn ts :
  foldl (MakeTemplateList_body missing root c) rtn ts
  = rtn ++ omap (λ t, snd <$> list_find (λ p, missing p = false)
                                        (candidates root c t)) ts.
Proof.
  apply foldl_option_list. intros. apply MakeTemplateList_body_first.
Qed.

Lemma TemplateExists_find c t :
  TemplateExists missing root c t
  = bool_decide (is_Some (list_find (λ p, missing p = false)
                                    (candidates root c t))).
Proof.
  unfold TemplateExists, candidates. simpl.
  repeat (match goal with
          | |- context [missing ?p] => destruct (missing p) eqn:?
          end; simpl; try rewrite decide_True by done;
          try rewrite decide_False by done; simpl);
    try done.
Qed.

(** X16: [MakeTemplateList] returns, for each template in turn, the first
    of its five candidate places (the name as given, then under views,
    views/controller, views/shared, views/shared/controller) that [os.Stat]
    does not report missing, and nothing at all for a template reported
    missing at all five. A place counts as soon as [os.IsNotExist] is false
    of the error of [os.Stat]: when something exists there, and also when
    [os.Stat] fails for another reason. *)
Theorem MakeTemplateList_first_found c ts :
  MakeTemplateList missing root c ts
  = omap (λ t, snd <$> list_find (λ p, missing p = false) (candidates root c t))
         ts.
Proof. unfold MakeTemplateList. by rewrite MakeTemplateList_foldl. Qed.

(** X17: [TemplateExists] reports true for exactly the templates that
    [MakeTemplateList] keeps: it is true if and only if the list made for
    that one template is not empty. *)
Theorem TemplateExists_iff_kept c t :
  TemplateExists missing root c t = true
  ↔ MakeTemplateList missing root c [t] ≠ [].
Proof.
  rewrite TemplateExists_find. unfold MakeTemplateList.
  rewrite MakeTemplateList_foldl. cbn -[candidates list_find].
  destruct (list_find (λ p, missing p = false) (candidates root c t))
    as [[i p]|]; simpl.
  - done.
  - split; done.
Qed.

(** X18: every path [MakeTemplateList] returns is one that [os.Stat] does
    not report missing ([os.IsNotExist] is false of its error) and is one
    of the five candidate places of a template it was given; it never
    returns more paths than templates. *)
Theorem MakeTemplateList_none_reported_missing c ts p :
  p ∈ MakeTemplateList missing root c ts →
  missing p = false
  ∧ (∃ t, t ∈ ts ∧ p ∈ candidates root c t)
  ∧ length (MakeTemplateList missing root c ts) ≤ length ts.
Proof.
  unfold MakeTemplateList. rewrite MakeTemplateList_foldl.
  rewrite app_nil_l.
  intros (t & Ht & Hfind)%list_elem_of_omap.
  destruct (list_find (λ p, missing p = false) (candidates root c t))
    as [[i q]|] eqn:Hq; [|done].
  injection Hfind as ->.
  apply list_find_Some in Hq as (Hi & Hp & _).
  split_and!; [done| |apply length_omap_le].
  exists t. split; [done|]. by eapply list_elem_of_lookup_2.
Qed.
End templates.

Lemma MakeTemplateList_none_reported_missing_witness :
  let missing := λ p : string, negb (bool_decide (p = "/app/views/shared/layout.htm")) in
  "/app/views/shared/layout.htm"
    ∈ MakeTemplateList missing "/app" "home" ["layout.htm"; "gone.htm"] ∧
  missing "/app/views/shared/layout.htm" = false
  ∧ (∃ t, t ∈ ["layout.htm"; "gone.htm"]
          ∧ "/app/views/shared/layout.htm" ∈ candidates "/app" "home" t)
  ∧ length (MakeTemplateList missing "/app" "home" ["layout.htm"; "gone.htm"])
    ≤ length ["layout.htm"; "gone.htm"].
Proof.
  intros missing.
  assert ("/app/views/shared/layout.htm"
            ∈ MakeTemplateList missing "/app" "home" ["layout.htm"; "gone.htm"])
    as Hin.
  { vm_compute. left. }
  split; [exact Hin|].
  exact (MakeTemplateList_none_reported_missing missing "/app" "home"
           ["layout.htm"; "gone.htm"] "/app/views/shared/layout.htm" Hin).
Defined.

(** *** The application path *)

(** X19: [GetApplicationPath] ignores the error of [filepath.Abs]: with the
    variable unset it returns the directory [Abs] gave, so "" and never "."
    when [Abs] failed; and once it has returned a non-empty path it returns
    that path on the next call whatever the operating system answers. *)
Theorem GetApplicationPath_ignores_error dir err appPath abs2 :
  GetApplicationPath (dir, err) appPath = GetApplicationPath (dir, None) appPath
  ∧ GetApplicationPath (dir, err) "" = (dir, dir)
  ∧ (GetApplicationPath abs2 (GetApplicationPath (dir, err) appPath).2).1
    = if decide ((GetApplicationPath (dir, err) appPath).1 = "")
      then abs2.1 else (GetApplicationPath (dir, err) appPath).1.
Proof.
  unfold GetApplicationPath. destruct abs2 as [dir2 err2].
  split_and!; [by case_decide|done|].
  repeat case_decide; simplify_eq/=; done.
Qed.

(** *** Random strings *)

Lemma succ_div_mod (k : nat) :
  (k mod 10 = 9 ∧ S k mod 10 = 0 ∧ S k / 10 = S (k / 10)) ∨
  (k mod 10 < 9 ∧ S k mod 10 = S (k mod 10) ∧ S k / 10 = k / 10).
Proof.
  pose proof (Nat.div_mod_eq k 10). pose proof (Nat.mod_upper_bound k 10).
  destruct (decide (k mod 10 = 9)) as [E|E]; [left|right].
  - split; [done|]. split; symmetry.
    + apply (Nat.mod_unique _ 10 (S (k / 10))); lia.
    + apply (Nat.div_unique _ 10 _ 0); lia.
  - split; [lia|]. split; symmetry.
    + apply (Nat.mod_unique _ 10 (k / 10)); lia.
    + apply (Nat.div_unique _ 10 _ (S (k mod 10))); lia.
Qed.

Lemma aligned_step src k calls cache remain :
  aligned src k calls cache remain →
  let '(cache1, remain1, calls1) :=
    if decide (remain = 0)%Z then (src calls, letterIDMax, S calls)
    else (cache, remain, calls) in
  Z.land cache1 letterIDMask = chunk src k
  ∧ aligned src (S k) calls1 (Z.shiftr cache1 letterIDBits) (remain1 - 1)%Z.
Proof.
  change letterIDMax with 10%Z. change letterIDMask with 63%Z.
  change letterIDBits with 6%Z.
  pose proof (Nat.mod_upper_bound k 10 ltac:(lia)).
  unfold aligned.
  intros [(-> & Hm & -> & Hk)|(-> & -> & ->)].
  - rewrite decide_True by done. unfold chunk. rewrite Hm. split; [done|].
    right. destruct (succ_div_mod k) as [(?&?&?)|(_&->&->)]; [lia|].
    rewrite Hm. done.
  - rewrite decide_False by lia. split; [done|].
    destruct (succ_div_mod k) as [(Hm&Hm'&Hd)|(Hm&->&->)].
    + left. rewrite Hm, Hm', Hd. split_and!; [done|done|done|lia].
    + right. split_and!; [lia| |done].
      rewrite Z.shiftr_shiftr by lia. f_equal. lia.
Qed.

Lemma RandomString_loop_fill src fuel : ∀ k calls i cache remain data,
  aligned src k calls cache remain → (i < Z.of_nat (length data))%Z →
  ∃ calls', RandomString_loop fuel src calls i cache remain data
    = let '(i', data') := fill (chunk src <$> seq k fuel) i data in
      if decide (0 ≤ i')%Z then OutOfFuel else Done (data', calls').
Proof.
  induction fuel as [|fuel IH]; intros k calls i cache remain data Hal Hi.
  { exists calls. simpl. by case_decide. }
  cbn [RandomString_loop fill seq fmap list_fmap].
  destruct (decide (0 ≤ i)%Z) as [Hpos|Hneg].
  - pose proof (aligned_step _ _ _ _ _ Hal) as Hs.
    destruct (decide (remain = 0)%Z) as [?|?];
      destruct Hs as [-> Hal'];
      change (Z.of_nat (String.length letterBytes)) with 36%Z.
    all: destruct (decide (chunk src k < 36)%Z);
      [rewrite decide_True by lia; apply IH;
         [done|rewrite length_insert; lia]
      |by apply IH].
  - exists calls. by rewrite decide_False.
Qed.

Lemma fill_spec cs : ∀ (j : nat) data, j ≤ length data →
  fill cs (Z.of_nat j - 1) data
  = let t := take j (filter (λ c, (c < 36)%Z) cs) in
    ((Z.of_nat j - 1 - Z.of_nat (length t))%Z,
     take (j - length t) data ++ reverse (letter <$> t) ++ drop j data).
Proof.
  induction cs as [|c cs IH]; intros j data Hj; cbn [fill].
  { rewrite filter_nil, take_nil. simpl. rewrite Nat.sub_0_r, take_drop.
    f_equal. lia. }
  destruct (decide (0 ≤ Z.of_nat j - 1)%Z) as [Hpos|Hneg].
  - destruct j as [|j]; [lia|].
    replace (Z.of_nat (S j) - 1)%Z with (Z.of_nat j) by lia.
    rewrite Nat2Z.id.
    destruct (decide (c < 36)%Z) as [Hc|Hc].
    + rewrite filter_cons_True by done.
      replace (Z.of_nat j - 1)%Z with (Z.of_nat j - 1)%Z by lia.
      rewrite IH by (rewrite length_insert; lia).
      cbn [take length fmap list_fmap]. cbv zeta.
      set (t := take j _). f_equal; [lia|].
      rewrite Nat.sub_succ.
      rewrite take_insert_ge by lia.
      rewrite drop_insert_ge by lia. rewrite Nat.sub_diag.
      destruct (lookup_lt_is_Some_2 data j) as [d Hd]; [lia|].
      rewrite (drop_S _ _ _ Hd). simpl.
      rewrite reverse_cons, <- !app_assoc. done.
    + rewrite filter_cons_False by done.
      replace (Z.of_nat j)%Z with (Z.of_nat (S j) - 1)%Z by lia.
      rewrite IH by done. done.
  - destruct j as [|j]; [|lia]. simpl. done.
Qed.

Lemma length_string_of_list_ascii l :
  String.length (String.string_of_list_ascii l) = length l.
Proof. induction l as [|a l IH]; simpl; [done|by rewrite IH]. Qed.

Lemma letter_in id :
  (0 ≤ id < 36)%Z → letter id ∈ String.list_ascii_of_string letterBytes.
Proof.
  intros Hid.
  assert (Forall (λ n, letter (Z.of_nat n)
                       ∈ String.list_ascii_of_string letterBytes) (seq 0 36))
    as Hall.
  { refine (bool_decide_unpack _ _). vm_compute. exact I. }
  rewrite Forall_forall in Hall.
  replace id with (Z.of_nat (Z.to_nat id)) by lia.
  apply Hall, elem_of_seq. lia.
Qed.

Lemma chunk_range src k : (0 ≤ chunk src k < 64)%Z.
Proof.
  unfold chunk. split.
  - apply Z.land_nonneg. by right.
  - change 64%Z with (2 ^ 6)%Z.
    change 63%Z with (Z.ones 6). rewrite Z.land_ones by lia.
    apply Z.mod_pos_bound. lia.
Qed.

Lemma accepted_range src m c : c ∈ accepted src m → (0 ≤ c < 36)%Z.
Proof.
  unfold accepted. intros [Hc (k & -> & _)%list_elem_of_fmap]%list_elem_of_filter.
  pose proof (chunk_range src k). lia.
Qed.

(** The whole call, for a length [make] accepts: it returns once the
    groups looked at hold [length] letters, with those letters from the
    last place to the first. *)
Lemma RandomString_fill maxAlloc fuel src n :
  (0 ≤ n ≤ maxAlloc)%Z →
  ∃ calls, RandomString maxAlloc fuel src n
    = if decide (Z.to_nat n ≤ length (accepted src fuel))
      then Done (String.string_of_list_ascii
                   (reverse (letter <$> take (Z.to_nat n) (accepted src fuel))),
                 calls)
      else OutOfFuel.
Proof.
  intros Hn. unfold RandomString. rewrite decide_False by lia.
  destruct (RandomString_loop_fill src fuel 0 1 (n - 1) (src 0) letterIDMax
              (replicate (Z.to_nat n) "000"%char)) as [calls ->].
  { right. done. }
  { rewrite length_replicate. lia. }
  exists calls.
  replace (n - 1)%Z with (Z.of_nat (Z.to_nat n) - 1)%Z by lia.
  rewrite fill_spec by (by rewrite length_replicate).
  fold (accepted src fuel). cbv zeta.
  rewrite length_take.
  destruct (decide (Z.to_nat n ≤ length (accepted src fuel))) as [Hle|Hgt].
  - rewrite Nat.min_l by done. rewrite decide_False by lia.
    rewrite Nat.sub_diag, take_0, drop_ge by (by rewrite length_replicate).
    by rewrite app_nil_l, app_nil_r.
  - rewrite Nat.min_r by lia. by rewrite decide_True by lia.
Qed.

Lemma accepted_prefix src m fuel :
  m ≤ fuel →
  accepted src fuel
  = accepted src m ++ filter (λ c, (c < 36)%Z) (chunk src <$> seq m (fuel - m)).
Proof.
  intros Hm. unfold accepted.
  replace fuel with (m + (fuel - m)) at 1 by lia.
  by rewrite seq_app, fmap_app, filter_app.
Qed.

(** X23: a string [RandomString] returns has the length asked for and
    holds only characters of [letterBytes], the capital letters and the
    digits, whatever values the random source gives. *)
Theorem RandomString_letters maxAlloc fuel src n s calls :
  RandomString maxAlloc fuel src n = Done (s, calls) →
  String.length s = Z.to_nat n
  ∧ ∀ c, c ∈ String.list_ascii_of_string s →
         c ∈ String.list_ascii_of_string letterBytes.
Proof.
  destruct (decide (n < 0 ∨ maxAlloc < n)%Z) as [Hbad|Hn].
  { unfold RandomString. by rewrite decide_True. }
  destruct (RandomString_fill maxAlloc fuel src n) as [calls' ->]; [lia|].
  case_decide as Hle; [|done]. intros [= <- <-].
  split.
  - rewrite length_string_of_list_ascii, length_reverse, length_fmap,
      length_take. lia.
  - intros c. rewrite String.list_ascii_of_string_of_list_ascii.
    intros (z & -> & Hz%subseteq_take)%elem_of_reverse%list_elem_of_fmap.
    apply letter_in. by eapply accepted_range.
Qed.

Lemma RandomString_letters_witness :
  match RandomString maxAlloc_amd64 40 counting_source 8 with
  | Done (s, calls) =>
      String.length s = Z.to_nat 8
      ∧ ∀ c, c ∈ String.list_ascii_of_string s →
             c ∈ String.list_ascii_of_string letterBytes
  | _ => False
  end.
Proof.
  destruct (RandomString maxAlloc_amd64 40 counting_source 8)
    as [[s calls]| |] eqn:H; [|by vm_compute in H..].
  exact (RandomString_letters _ _ _ _ _ _ H).
Defined.

(** X24: [RandomString] panics exactly when [make] does, on a negative
    length and on a length above the runtime's allocation limit; for any
    other length the index it writes at is always inside the slice. *)
Theorem RandomString_panics_iff_make_panics maxAlloc fuel src n :
  RandomString maxAlloc fuel src n = Panicked ↔ (n < 0 ∨ maxAlloc < n)%Z.
Proof.
  split.
  - intros Hp. destruct (decide (n < 0 ∨ maxAlloc < n)%Z) as [|Hn]; [done|].
    destruct (RandomString_fill maxAlloc fuel src n) as [calls Hr]; [lia|].
    rewrite Hr in Hp. by case_decide.
  - intros Hn. unfold RandomString. by rewrite decide_True.
Qed.

(** X25: the result of [RandomString]. The loop reads the values drawn six
    bits at a time, ten groups a value from the low bits up, skips a group
    of 36 or more and takes the letter of any other. Once the first [m]
    groups hold [length] letters the call returns, within [m] iterations,
    and its string is those letters from the last place to the first;
    unless the length is above the allocation limit, where [make] has
    panicked. *)
Theorem RandomString_returns maxAlloc fuel src n m :
  (0 ≤ n)%Z → Z.to_nat n ≤ length (accepted src m) → m ≤ fuel →
  ∃ calls, RandomString maxAlloc fuel src n
    = if decide (maxAlloc < n)%Z then Panicked
      else Done (String.string_of_list_ascii
                   (reverse (letter <$> take (Z.to_nat n) (accepted src m))),
                 calls).
Proof.
  intros Hn Hle Hm. destruct (decide (maxAlloc < n)%Z) as [Hbig|Hfits].
  { exists 0. unfold RandomString. by rewrite decide_True by lia. }
  destruct (RandomString_fill maxAlloc fuel src n) as [calls Hr]; [lia|].
  exists calls. rewrite Hr, (accepted_prefix src m fuel Hm).
  rewrite decide_True by (rewrite length_app; lia).
  by rewrite take_app_le.
Qed.

Lemma RandomString_returns_witness :
  (0 ≤ 8)%Z ∧ Z.to_nat 8 ≤ length (accepted counting_source 20) ∧ 20 ≤ 40 ∧
  ∃ calls, RandomString maxAlloc_amd64 40 counting_source 8
    = Done (String.string_of_list_ascii
              (reverse (letter <$> take (Z.to_nat 8)
                                        (accepted counting_source 20))),
            calls).
Proof.
  assert (Z.to_nat 8 ≤ length (accepted counting_source 20)) as Hle.
  { vm_compute. lia. }
  split_and!; [lia|exact Hle|lia|].
  destruct (RandomString_returns maxAlloc_amd64 40 counting_source 8 20)
    as [calls Hr]; [lia|exact Hle|lia|].
  exists calls. rewrite Hr. by rewrite decide_False by (by vm_compute).
Defined.

(** X26: for a length [make] accepts, [RandomString] is still running
    after [fuel] iterations exactly when the first [fuel] groups hold fewer
    than [length] letters. *)
Theorem RandomString_runs_on maxAlloc fuel src n :
  (0 ≤ n)%Z →
  RandomString maxAlloc fuel src n = OutOfFuel
  ↔ (n ≤ maxAlloc)%Z ∧ length (accepted src fuel) < Z.to_nat n.
Proof.
  intros Hn. destruct (decide (maxAlloc < n)%Z) as [Hbig|Hfits].
  { unfold RandomString. rewrite decide_True by lia. split; [done|lia]. }
  destruct (RandomString_fill maxAlloc fuel src n) as [calls ->]; [lia|].
  case_decide; split; (done || lia).
Qed.

Lemma RandomString_runs_on_witness :
  (0 ≤ 8)%Z ∧
  (RandomString maxAlloc_amd64 5 counting_source 8 = OutOfFuel
   ↔ (8 ≤ maxAlloc_amd64)%Z
     ∧ length (accepted counting_source 5) < Z.to_nat 8).
Proof.
  split; [lia|].
  apply (RandomString_runs_on maxAlloc_amd64 5 counting_source 8). lia.
Defined.

(** X27: [RandomString] does not return on every source: when no group of
    the values drawn is below 36, as with a source that always returns
    2^63-1, a call for a positive length never returns; past [make] it is
    still running after any number of iterations. *)
Theorem RandomString_needs_letters maxAlloc src n :
  (∀ k, (36 ≤ chunk src k)%Z) → (0 < n)%Z →
  ∀ fuel, RandomString maxAlloc fuel src n
          = if decide (maxAlloc < n)%Z then Panicked else OutOfFuel.
Proof.
  intros Hsrc Hn fuel. destruct (decide (maxAlloc < n)%Z) as [Hbig|Hfits].
  { unfold RandomString. by rewrite decide_True by lia. }
  destruct (RandomString_fill maxAlloc fuel src n) as [calls ->]; [lia|].
  assert (accepted src fuel = []) as ->.
  { apply elem_of_nil_inv. unfold accepted.
    intros c [Hc (k & -> & _)%list_elem_of_fmap]%list_elem_of_filter.
    specialize (Hsrc k). lia. }
  rewrite decide_False; [done|simpl; lia].
Qed.

Lemma RandomString_needs_letters_witness :
  (∀ k, (36 ≤ chunk stuck_source k)%Z) ∧ (0 < 8)%Z ∧
  ∀ fuel, RandomString maxAlloc_amd64 fuel stuck_source 8 = OutOfFuel.
Proof.
  assert (∀ k, (36 ≤ chunk stuck_source k)%Z) as Hsrc.
  { intros k. unfold chunk, stuck_source.
    pose proof (Nat.mod_upper_bound k 10 ltac:(lia)) as Hm.
    revert Hm. generalize (k mod 10). intros m Hm.
    do 10 (destruct m as [|m]; [by vm_compute|]). lia. }
  split_and!; [exact Hsrc|lia|]. intros fuel.
  rewrite (RandomString_needs_letters maxAlloc_amd64 stuck_source 8 Hsrc)
    by lia.
  by rewrite decide_False by (by vm_compute).
Defined.

(** *** Logging *)

Section logging.
Variable os : os_answers.
Variable now : string.

Ltac gate st :=
  destruct (decide (LogLevel st < _)%Z);
    [simpl; split; [done|intros [? ?]; lia]|];
  destruct (decide (LogFilename st = ""));
    [simpl; split; [done|by intros [? ?]]|];
  destruct (open_error os (LogFilename st));
    [simpl; split; [intros _; split; [lia|done]|done]|];
  destruct (write_error os (LogFilename st) _);
    simpl; (split; [intros _; split; [lia|done]|done]).

(** X20: a logging function makes a call on the operating system exactly
    when the level is at or above its own (error 1, warning 2, information
    3, trace 4) and a file name is set. In the initial state, where the name
    is empty, none of the four makes any call and each returns an error. *)
Theorem logging_gate message st :
  ((LogError os now message st).1 ≠ []
   ↔ (LogLevelError ≤ LogLevel st)%Z ∧ LogFilename st ≠ "")
  ∧ ((LogWarning os now message st).1 ≠ []
     ↔ (LogLevelWarning ≤ LogLevel st)%Z ∧ LogFilename st ≠ "")
  ∧ ((LogMessage os now message st).1 ≠ []
     ↔ (LogLevelInfo ≤ LogLevel st)%Z ∧ LogFilename st ≠ "")
  ∧ ((TraceLog os now message st).1 ≠ []
     ↔ (LogLevelTrace ≤ LogLevel st)%Z ∧ LogFilename st ≠ "")
  ∧ (LogError os now message initial_logging).1 = []
  ∧ is_Some (LogError os now message initial_logging).2
  ∧ is_Some (LogWarning os now message initial_logging).2
  ∧ is_Some (LogMessage os now message initial_logging).2
  ∧ is_Some (TraceLog os now message initial_logging).2.
Proof.
  unfold LogError, LogWarning, LogMessage, TraceLog.
  split_and!; [gate st|gate st|gate st|gate st|done|by eexists..].
Qed.

(** X21: when the log file cannot be opened, [LogWarning] returns nil as
    if the warning had been written, where [LogError] returns the error of
    the open. Neither writes or closes anything. *)
Theorem LogWarning_hides_open_failure message st err :
  (LogLevelWarning ≤ LogLevel st)%Z → LogFilename st ≠ "" →
  open_error os (LogFilename st) = Some err →
  LogWarning os now message st = ([OpenFile (LogFilename st)], None)
  ∧ LogError os now message st = ([OpenFile (LogFilename st)], Some err).
Proof.
  intros Hl Hf Ho. unfold LogWarning, LogError, LogLevelError.
  unfold LogLevelWarning in *.
  split; rewrite decide_False by lia; rewrite decide_False by done;
    by rewrite Ho.
Qed.

(** X22: on every path each of the four logging functions either makes
    no call and returns an error, or opens the file named by [LogFilename]
    and stops when that fails, or opens it, writes once, closes it and
    returns the error of the write. It touches no other file, never writes
    to a file it did not open and never leaves one open. *)
Theorem logging_brackets_the_file message st :
  bracketed os (LogFilename st) (LogError os now message st)
  ∧ bracketed os (LogFilename st) (LogWarning os now message st)
  ∧ bracketed os (LogFilename st) (LogMessage os now message st)
  ∧ bracketed os (LogFilename st) (TraceLog os now message st).
Proof.
  unfold LogError, LogWarning, LogMessage, TraceLog, bracketed.
  split_and!;
    (destruct (decide (LogLevel st < _)%Z); [by eexists|];
     destruct (decide (LogFilename st = "")); [by eexists|];
     destruct (open_error os (LogFilename st)) eqn:Ho; [by simpl; eauto|];
     destruct (write_error os (LogFilename st) _) eqn:Hw; simpl;
     by rewrite ?Hw).
Qed.
End logging.

Lemma LogWarning_hides_open_failure_witness :
  let os := {| open_error := λ _, Some "permission denied";
               write_error := λ _ _, None |} in
  let st := SetLogLevel LogLevelWarning (SetLogFilename "app.log" initial_logging) in
  LogWarning os "now" "not found" st = ([OpenFile "app.log"], None)
  ∧ LogError os "now" "not found" st
    = ([OpenFile "app.log"], Some "permission denied").
Proof.
  intros os st.
  apply (LogWarning_hides_open_failure os "now" "not found" st
           "permission denied"); [by vm_compute|done|done].
Defined.

End UtilFacts.
